(** * Blackjack: the card model, hand evaluation and the round logic

    A shallow embedding of [blackjack.py].  Python values are modelled as
    follows: [str] is [string], [int] is [Z], a [dict] with string keys is a
    [gmap string Z].  The deck is a [list] object that [main] passes to
    [deal_card], which mutates it: it lives in a heap of list objects and is
    known to the program by its address.  The two hands and the dictionary
    of the counters are objects that [main] alone holds and changes: they
    are values of the state of a round.  Effects are a state and error
    monad over the world of the program; a [while] loop runs on fuel. *)

From stdpp Require Import base decidable option list gmap strings pretty.
From Stdlib Require Import ZArith Lia.

Local Open Scope string_scope.
Local Open Scope list_scope.
Local Open Scope Z_scope.

(** ** Cards *)

(** [Card = namedtuple('Card', ['suit', 'rank'])]: both fields are strings. *)
Record Card : Type := mkCard { suit : string; rank : string }.

#[global] Instance Card_eq_dec : EqDecision Card.
Proof. solve_decision. Defined.

(** ** Hand evaluation *)

(** The dictionary [values] of [calculate_hand]. *)
Definition values : gmap string Z :=
  list_to_map
    [("2", 2); ("3", 3); ("4", 4); ("5", 5); ("6", 6); ("7", 7); ("8", 8);
     ("9", 9); ("10", 10); ("J", 10); ("Q", 10); ("K", 10); ("A", 11)].

(** [sum(1 for card in hand if card.rank == 'A')]. *)
Definition num_aces (hand : list Card) : nat :=
  length (filter (λ card, rank card = "A") hand).

(** [sum(values[card.rank] for card in hand)], accumulating from the left as
    [sum] does; [None] stands for the [KeyError] of a rank that is not a key
    of [values]. *)
Fixpoint sum_values (acc : Z) (hand : list Card) : option Z :=
  match hand with
  | [] => Some acc
  | card :: hand' =>
      match values !! rank card with
      | Some v => sum_values (acc + v) hand'
      | None => None
      end
  end.

(** [while total > 21 and num_aces: total -= 10; num_aces -= 1]. *)
Fixpoint demote_aces (num_aces : nat) (total : Z) : Z :=
  match num_aces with
  | O => total
  | S num_aces' =>
      if bool_decide (21 < total) then demote_aces num_aces' (total - 10)
      else total
  end.

Definition calculate_hand (hand : list Card) : option Z :=
  match sum_values 0 hand with
  | Some total => Some (demote_aces (num_aces hand) total)
  | None => None
  end.

(** ** The program state and its effects *)

(** The exceptions the program can raise: a missing dictionary key, an index
    out of range ([pop] from an empty list, [hand[0]] of an empty hand), the
    end of the input at [input()], and [quit()]. *)
Inductive exn : Type := KeyError | IndexError | EOFError | SystemExit.

(** What the program writes to the terminal: a line written by [print], or
    the prompt of an [input] call. *)
Inductive event : Type :=
  | Printed (text : string)
  | Prompted (text : string).

(** The address of a list object. *)
Definition loc : Type := nat.

(** The world the program runs in: the list objects allocated so far, by
    address; how many numbers the random generator has handed out; the lines
    waiting on the standard input; what has been written to the terminal;
    the text of [welcome.txt] and the counters stored in [game_stats.json],
    for each of the two files if it exists.  The file [game_stats.json] is
    described when it holds what [save_game_stats] writes, a JSON object
    whose values are integers; text that is not JSON, a JSON value that is
    not an object and an object with a value that is not an integer are not
    described, and no world stands for a run that starts with such a
    file. *)
Record world : Type := World {
  heap : list (list Card);
  draws : nat;
  stdin : list string;
  console : list event;
  welcome_file : option string;
  stats_file : option (gmap string Z)
}.

Definition set_heap (h : list (list Card)) (w : world) : world :=
  World h (draws w) (stdin w) (console w) (welcome_file w) (stats_file w).
Definition set_draws (n : nat) (w : world) : world :=
  World (heap w) n (stdin w) (console w) (welcome_file w) (stats_file w).
Definition set_stdin (i : list string) (w : world) : world :=
  World (heap w) (draws w) i (console w) (welcome_file w) (stats_file w).
Definition set_console (c : list event) (w : world) : world :=
  World (heap w) (draws w) (stdin w) c (welcome_file w) (stats_file w).
Definition set_stats_file (f : option (gmap string Z)) (w : world) : world :=
  World (heap w) (draws w) (stdin w) (console w) (welcome_file w) f.

(** A computation ends with a value, with an exception, or it is cut off
    because a loop was given too little fuel. *)
Inductive outcome (A : Type) : Type :=
  | Done (a : A) (w : world)
  | Raised (e : exn) (w : world)
  | Timeout.
Arguments Done {A} a w.
Arguments Raised {A} e w.
Arguments Timeout {A}.

Definition M (A : Type) : Type := world → outcome A.

#[global] Instance M_ret : MRet M := λ A a w, Done a w.
#[global] Instance M_bind : MBind M := λ A B f m w,
  match m w with
  | Done a w' => f a w'
  | Raised e w' => Raised e w'
  | Timeout => Timeout
  end.

Definition raise {A : Type} (e : exn) : M A := λ w, Raised e w.

(** A dictionary lookup [d[key]] that raises [KeyError]. *)
Definition or_KeyError {A : Type} (o : option A) : M A :=
  match o with
  | Some a => mret a
  | None => raise KeyError
  end.

(** A [while] loop: the body returns [inl s] to go round again with the
    loop's variables [s], and [inr a] to leave the loop with [a]. *)
Fixpoint loop {S A : Type} (fuel : nat) (body : S → M (S + A)) (s : S) : M A :=
  match fuel with
  | O => λ _, Timeout
  | Datatypes.S fuel' =>
      r ← body s;
      match r with
      | inl s' => loop fuel' body s'
      | inr a => mret a
      end
  end.

(** A [for] loop over a list whose body returns nothing. *)
Fixpoint for_each {A : Type} (l : list A) (body : A → M unit) : M unit :=
  match l with
  | [] => mret ()
  | a :: l' => body a;; for_each l' body
  end.

(** The line feed of ["\n"]. *)
Definition nl : string := String (Ascii.ascii_of_nat 10) "".

(** [print(text)]. *)
Definition print (text : string) : M unit :=
  λ w, Done () (set_console (console w ++ [Printed text]) w).

(** [input(prompt)]: the prompt is written, and the next line of the input
    is read; at the end of the input Python raises [EOFError]. *)
Definition input (prompt : string) : M string := λ w,
  let w' := set_console (console w ++ [Prompted prompt]) w in
  match stdin w with
  | [] => Raised EOFError w'
  | line :: rest => Done line (set_stdin rest w')
  end.

(** [quit()]. *)
Definition quit : M unit := raise SystemExit.

(** *** List objects *)

(** A new list object with the given items; its address is the result. *)
Definition alloc (items : list Card) : M loc :=
  λ w, Done (length (heap w)) (set_heap (heap w ++ [items]) w).

(** The items of the list object at an address; an address at which nothing
    is allocated, which no program holds, reads as the empty list. *)
Definition items_at (l : loc) (w : world) : list Card :=
  default [] (heap w !! l).

(** Reading a list object, as [if not deck] and [len(x)] do. *)
Definition items (l : loc) : M (list Card) := λ w, Done (items_at l w) w.

(** [l.pop()]: removes the last item and returns it; [IndexError] on an
    empty list. *)
Definition pop (l : loc) : M Card := λ w,
  match last (items_at l w) with
  | Some card => Done card (set_heap (<[l := removelast (items_at l w)]> (heap w)) w)
  | None => Raised IndexError w
  end.

(** ** The deck *)

Definition suits : list string := ["Hearts"; "Diamonds"; "Clubs"; "Spades"].
Definition ranks : list string :=
  ["2"; "3"; "4"; "5"; "6"; "7"; "8"; "9"; "10"; "J"; "Q"; "K"; "A"].

(** [[Card(suit, rank) for suit in suits for rank in ranks]]. *)
Definition new_deck : list Card :=
  suit ← suits; rank ← ranks; [mkCard suit rank].

(** [create_deck()] returns a new list object. *)
Definition create_deck : M loc := alloc new_deck.

(** [x[i], x[j] = x[j], x[i]]: the right-hand side is read first, then
    [x[i]] and [x[j]] are assigned in this order. *)
Definition swap {A : Type} (x : list A) (i j : nat) : list A :=
  match x !! j, x !! i with
  | Some b, Some a => <[j := a]> (<[i := b]> x)
  | _, _ => x
  end.

Section Game.

(** [random.shuffle] draws its numbers from the generator's state; the
    [n]-th number the generator hands out is [entropy n], whatever it is. *)
Variable entropy : nat → nat.

(** [str.upper]. *)
Variable upper : string → string.

(** [random.shuffle(x)] of the Python library:
    [for i in reversed(range(1, len(x))): j = randbelow(i + 1); x[i], x[j] = x[j], x[i]],
    here from index [i] down to 1, with [randbelow(k)] the next number of the
    generator modulo [k]. *)
Fixpoint shuffle_from {A : Type} (i : nat) (n : nat) (x : list A) : list A :=
  match i with
  | O => x
  | S i' =>
      let j := (entropy n `mod` (i + 1))%nat in
      shuffle_from i' (n + 1)%nat (swap x i j)
  end.

Definition shuffle {A : Type} (n : nat) (x : list A) : list A :=
  shuffle_from (length x - 1)%nat n x.

(** [shuffle_deck(deck)]: [random.shuffle(deck)], in place. *)
Definition shuffle_deck (deck : loc) : M unit := λ w,
  let x := items_at deck w in
  Done () (set_draws (draws w + (length x - 1))%nat
             (set_heap (<[deck := shuffle (draws w) x]> (heap w)) w)).

(** [deal_card(deck)].  The parameter [deck] is a local name of the
    function: the assignment [deck = create_deck()] binds it to the new list
    object, and the list object the caller passed is not touched. *)
Definition deal_card (deck : loc) : M Card :=
  x ← items deck;
  deck ← (if bool_decide (x = [])
          then deck ← create_deck; shuffle_deck deck;; mret deck
          else mret deck);
  pop deck.

(** ** The counters *)

Definition TOTAL_GAMES : string := "total_games".
Definition TOTAL_WINS : string := "total_wins".
Definition TOTAL_LOSSES : string := "total_losses".
Definition TOTAL_TIES : string := "total_ties".
Definition PLAYER_BUSTS : string := "player_busts".
Definition DEALER_BUSTS : string := "dealer_busts".

(** [stats[key] += 1]. *)
Definition incr (key : string) (stats : gmap string Z) : M (gmap string Z) :=
  v ← or_KeyError (stats !! key);
  mret (<[key := v + 1]> stats).

(** [load_game_stats()]: the counters of the file, or six zeros when there
    is no file.  [json.load] gives back the dictionary of integers that
    [json.dump] wrote; the files a world describes are these (see [world]),
    so that [JSONDecodeError], and the [TypeError] that a value which is not
    an integer would cause later, are not outcomes of the model. *)
Definition load_game_stats : M (gmap string Z) := λ w,
  match stats_file w with
  | Some stats => Done stats w
  | None =>
      Done (list_to_map
              [(TOTAL_GAMES, 0); (TOTAL_WINS, 0); (TOTAL_LOSSES, 0);
               (TOTAL_TIES, 0); (PLAYER_BUSTS, 0); (DEALER_BUSTS, 0)]) w
  end.

(** [save_game_stats(stats)]: opening the file for writing creates it, so
    that the handler of [FileNotFoundError] has nothing to do. *)
Definition save_game_stats (stats : gmap string Z) : M unit :=
  λ w, Done () (set_stats_file (Some stats) w).

(** [display_game_stats(stats)]. *)
Definition display_game_stats (stats : gmap string Z) : M unit :=
  print (nl +:+ "--- Saved Game Statistics ----" +:+ nl);;
  v ← or_KeyError (stats !! TOTAL_GAMES);
  print ("Total Games Played: " +:+ pretty v);;
  v ← or_KeyError (stats !! TOTAL_WINS);
  print ("Total Wins: " +:+ pretty v);;
  v ← or_KeyError (stats !! TOTAL_LOSSES);
  print ("Total Losses: " +:+ pretty v);;
  v ← or_KeyError (stats !! TOTAL_TIES);
  print ("Total Ties: " +:+ pretty v);;
  v ← or_KeyError (stats !! PLAYER_BUSTS);
  print ("Player Busts: " +:+ pretty v);;
  v ← or_KeyError (stats !! DEALER_BUSTS);
  print ("Dealer Busts: " +:+ pretty v);;
  print ("-------------------------------" +:+ nl).

(** [welcome()]: the text of [welcome.txt], or a note that there is no such
    file. *)
Definition welcome : M unit := λ w,
  match welcome_file w with
  | Some text => print text w
  | None => print "File 'welcome.txt' not found. Proceeding with the game..." w
  end.

(** ** Showing hands *)

Definition suit_symbols : gmap string string :=
  list_to_map
    [("Hearts", "♥"); ("Diamonds", "♦"); ("Clubs", "♣"); ("Spades", "♠")].

(** [f"[{suit_symbols.get(card.suit)}{card.rank}]"]; [get] gives [None] for a
    suit that is not a key, which is formatted as ["None"]. *)
Definition show_card (card : Card) : string :=
  "[" +:+ default "None" (suit_symbols !! suit card) +:+ rank card +:+ "]".

Definition display_hand (hand : list Card) (show_all : bool) : M unit :=
  match hand with
  | [] => raise IndexError
  | first :: rest =>
      print (show_card first);;
      if show_all then for_each rest (λ card, print (show_card card))
      else print "[X]"
  end.

Definition first_hand (player dealer : list Card) : M unit :=
  current_total ← or_KeyError (calculate_hand player);
  print ("Player's hand (" +:+ pretty current_total +:+ "):");;
  display_hand player true;;
  print "";;
  print "Dealer's hand (X):";;
  display_hand dealer false;;
  print "".

(** ** The prompts *)

(** One turn of the loop of [play_again]. *)
Definition play_again_step (_ : unit) : M (unit + unit) :=
  answer ← input "Enter [P] to play again or [Q] to quit: ";
  if bool_decide (upper answer = "P") then
    print "";; mret (inr ())
  else if bool_decide (upper answer = "Q") then
    quit;; mret (inl ())
  else
    print ("Invalid input!" +:+ nl);; mret (inl ()).

Definition play_again (fuel : nat) : M unit :=
  loop fuel play_again_step ().

(** ** A round *)

(** The variables of [main] that a round works on. *)
Record round : Type := Round {
  game_stats : gmap string Z;
  player_hand : list Card;
  dealer_hand : list Card;
  bust : bool
}.

Definition set_game_stats (stats : gmap string Z) (r : round) : round :=
  Round stats (player_hand r) (dealer_hand r) (bust r).
Definition set_player_hand (hand : list Card) (r : round) : round :=
  Round (game_stats r) hand (dealer_hand r) (bust r).
Definition set_dealer_hand (hand : list Card) (r : round) : round :=
  Round (game_stats r) (player_hand r) hand (bust r).
Definition set_bust (b : bool) (r : round) : round :=
  Round (game_stats r) (player_hand r) (dealer_hand r) b.

(** [for _ in range(n)]: a card to the player, then a card to the dealer. *)
Fixpoint deal_hands (n : nat) (cards : loc) (r : round) : M round :=
  match n with
  | O => mret r
  | S n' =>
      card ← deal_card cards;
      let r := set_player_hand (player_hand r ++ [card]) r in
      card ← deal_card cards;
      let r := set_dealer_hand (dealer_hand r ++ [card]) r in
      deal_hands n' cards r
  end.

(** One turn of the loop of the player's turn. *)
Definition player_step (cards : loc) (r : round) : M (round + round) :=
  action ← input "Enter [H] to hit or [S] to stand: ";
  print "";;
  if bool_decide (upper action = "H") then
    card ← deal_card cards;
    let r := set_player_hand (player_hand r ++ [card]) r in
    player_total ← or_KeyError (calculate_hand (player_hand r));
    print ("Player's hand (" +:+ pretty player_total +:+ "):");;
    display_hand (player_hand r) true;;
    print "";;
    if bool_decide (21 < player_total) then
      let r := set_bust true r in
      stats ← incr PLAYER_BUSTS (game_stats r);
      stats ← incr TOTAL_LOSSES stats;
      let r := set_game_stats stats r in
      dealer_total ← or_KeyError (calculate_hand (dealer_hand r));
      print ("Dealer's hand (" +:+ pretty dealer_total +:+ "):");;
      display_hand (dealer_hand r) true;;
      print "";;
      print ("RESULT: Bust! You lose." +:+ nl);;
      mret (inr r)
    else mret (inl r)
  else if bool_decide (upper action = "S") then
    mret (inr r)
  else
    print ("Invalid input!" +:+ nl);; mret (inl r).

Definition player_turn (fuel : nat) (cards : loc) (r : round) : M round :=
  loop fuel (player_step cards) r.

(** One turn of the dealer's loop, its test included. *)
Definition dealer_step (cards : loc) (r : round) : M (round + round) :=
  total ← or_KeyError (calculate_hand (dealer_hand r));
  if bool_decide (total < 17) then
    print ("The dealer takes a new card!" +:+ nl);;
    card ← deal_card cards;
    let r := set_dealer_hand (dealer_hand r ++ [card]) r in
    dealer_total ← or_KeyError (calculate_hand (dealer_hand r));
    print ("Dealer's hand (" +:+ pretty dealer_total +:+ "):");;
    display_hand (dealer_hand r) true;;
    print "";;
    if bool_decide (21 < dealer_total) then
      stats ← incr DEALER_BUSTS (game_stats r);
      stats ← incr TOTAL_WINS stats;
      let r := set_game_stats stats r in
      print ("RESULT: The dealer bust. You win!" +:+ nl);;
      mret (inr r)
    else mret (inl r)
  else mret (inr r).

Definition dealer_draws (fuel : nat) (cards : loc) (r : round) : M round :=
  loop fuel (dealer_step cards) r.

(** [if not bust: ...]: the dealer's hand is shown, then the dealer draws. *)
Definition dealer_turn (fuel : nat) (cards : loc) (r : round) : M round :=
  if bust r then mret r
  else
    dealer_total ← or_KeyError (calculate_hand (dealer_hand r));
    print ("Dealer's hand (" +:+ pretty dealer_total +:+ "):");;
    display_hand (dealer_hand r) true;;
    print "";;
    dealer_draws fuel cards r.

(** The comparison of the two totals that ends a round. *)
Definition compare_totals (r : round) : M round :=
  player_total ← or_KeyError (calculate_hand (player_hand r));
  dealer_total ← or_KeyError (calculate_hand (dealer_hand r));
  let scores :=
    "SCORES: Player (" +:+ pretty player_total +:+ "), Dealer ("
      +:+ pretty dealer_total +:+ ")" in
  if bool_decide (player_total = dealer_total) then
    stats ← incr TOTAL_TIES (game_stats r);
    print scores;;
    print ("RESULT: It's a tie!" +:+ nl);;
    mret (set_game_stats stats r)
  else if bool_decide (dealer_total < player_total) && bool_decide (player_total ≤ 21) then
    stats ← incr TOTAL_WINS (game_stats r);
    print scores;;
    print ("RESULT: You win!" +:+ nl);;
    mret (set_game_stats stats r)
  else if bool_decide (player_total < dealer_total) && bool_decide (dealer_total ≤ 21) then
    stats ← incr TOTAL_LOSSES (game_stats r);
    print scores;;
    print ("RESULT: You lose! The dealer wins." +:+ nl);;
    mret (set_game_stats stats r)
  else mret r.

(** The body of the loop of [main], up to and including the saving of the
    counters; [stats] is the dictionary [game_stats] and [cards] the list
    object of the deck. *)
Definition game_round (fuel : nat) (cards : loc) (stats : gmap string Z) : M round :=
  stats ← incr TOTAL_GAMES stats;
  let r := Round stats [] [] false in
  r ← deal_hands 2 cards r;
  first_hand (player_hand r) (dealer_hand r);;
  r ← player_turn fuel cards r;
  r ← dealer_turn fuel cards r;
  r ← compare_totals r;
  save_game_stats (game_stats r);;
  mret r.

(** The loop of [main]: a round, then the question whether to play again.
    The loop is left only by an exception ([quit()] raises [SystemExit]). *)
Definition main_step (fuel : nat) (cards : loc) (stats : gmap string Z)
    : M (gmap string Z + unit) :=
  r ← game_round fuel cards stats;
  play_again fuel;;
  mret (inl (game_stats r)).

Definition main_loop (fuel : nat) (cards : loc) (stats : gmap string Z) : M unit :=
  loop fuel (main_step fuel cards) stats.

(** [main()]; its variable [player_total] is assigned before every use and
    is left out. *)
Definition main (fuel : nat) : M unit :=
  welcome;;
  stats ← load_game_stats;
  display_game_stats stats;;
  print ("LET'S PLAY!" +:+ nl);;
  cards ← create_deck;
  shuffle_deck cards;;
  main_loop fuel cards stats.

End Game.

(** [str.upper] on the letters of ASCII, for the examples. *)
Definition ascii_upper_char (c : Ascii.ascii) : Ascii.ascii :=
  let n := Ascii.nat_of_ascii c in
  if (97 <=? n)%nat && (n <=? 122)%nat then Ascii.ascii_of_nat (n - 32) else c.

Fixpoint ascii_upper (s : string) : string :=
  match s with
  | EmptyString => EmptyString
  | String c s' => String (ascii_upper_char c) (ascii_upper s')
  end.

(** ** Specification of the hand total, in the words of the spec *)

(** The value of a rank: 2 to 10 at face value, 10 for J, Q and K, 11 for
    the Ace (and nothing for a string that is not a rank). *)
Definition spec_value (r : string) : Z :=
  if decide (r = "A") then 11
  else if decide (r ∈ ["J"; "Q"; "K"]) then 10
  else match list_find (λ k : string, k = r) ["2"; "3"; "4"; "5"; "6"; "7"; "8"; "9"; "10"] with
       | Some (i, _) => Z.of_nat i + 2
       | None => 0
       end.

(** The sum of the values of the cards, every Ace counted as 11. *)
Definition spec_sum (hand : list Card) : Z :=
  foldr (λ card t, spec_value (rank card) + t) 0 hand.

(** The sum of the values of the cards, every Ace counted as 1. *)
Definition hard_total (hand : list Card) : Z :=
  spec_sum hand - 10 * Z.of_nat (num_aces hand).

(** A card of the deck: its rank is one of the thirteen. *)
Definition valid_hand (hand : list Card) : Prop :=
  Forall (λ card, rank card ∈ ranks) hand.

(** ** The counters: what a round does to them *)

(** [stats'] is [stats] after [stats[key] += 1]. *)
Definition bump (key : string) (stats stats' : gmap string Z) : Prop :=
  ∃ v : Z, stats !! key = Some v ∧ stats' = <[key := v + 1]> stats.

(** The counter [key] is greater by exactly 1 in [stats'] than in [stats]. *)
Definition increased (key : string) (stats stats' : gmap string Z) : Prop :=
  ∃ v : Z, stats !! key = Some v ∧ stats' !! key = Some (v + 1).

(** The counter [key] is in [stats'] what it is in [stats]. *)
Definition unchanged (key : string) (stats stats' : gmap string Z) : Prop :=
  stats' !! key = stats !! key.

(** ** Reasoning about computations: definitions *)

(** [post m w Q]: when [m], run in [w], ends with a value, [Q] holds of the
    value and of the world it leaves. *)
Definition post {A : Type} (m : M A) (w : world) (Q : A → world → Prop) : Prop :=
  match m w with
  | Done a w' => Q a w'
  | Raised _ _ | Timeout => True
  end.

(** [halts m w]: [m], run in [w], is not cut off for want of fuel. *)
Definition halts {A : Type} (m : M A) (w : world) : Prop := m w ≠ Timeout.

(** [quiet m]: [m] does not read the standard input. *)
Definition quiet {A : Type} (m : M A) : Prop :=
  ∀ w, post m w (λ _ w', stdin w' = stdin w).

(** [wpx E m w Q]: [m], run in [w], is not cut off; if it raises an
    exception, it is one of [E]; and if it ends with a value, [Q] holds of
    the value and of the world it leaves. *)
Definition wpx {A : Type} (E : exn → Prop) (m : M A) (w : world)
    (Q : A → world → Prop) : Prop :=
  match m w with
  | Done a w' => Q a w'
  | Raised e _ => E e
  | Timeout => False
  end.

(** [tame cards m P]: in a world where the deck [cards] holds cards of the
    thirteen ranks, [m] ends with a value of which [P] holds, without an
    exception; it leaves such a deck, and it does not read the input. *)
Definition tame {A : Type} (cards : loc) (m : M A) (P : A → Prop) : Prop :=
  ∀ w, valid_hand (items_at cards w) →
       wpx (λ _, False) m w (λ a w',
         P a ∧ valid_hand (items_at cards w') ∧ stdin w' = stdin w).

(** The six counters are keys of the dictionary. *)
Definition has_counters (stats : gmap string Z) : Prop :=
  Forall (λ key, is_Some (stats !! key))
    [TOTAL_GAMES; TOTAL_WINS; TOTAL_LOSSES; TOTAL_TIES; PLAYER_BUSTS; DEALER_BUSTS].

(** The hands of a round hold cards of the thirteen ranks, and its counters
    are there. *)
Definition well_formed (r : round) : Prop :=
  valid_hand (player_hand r) ∧ valid_hand (dealer_hand r)
  ∧ has_counters (game_stats r).

(** ** The prompts: what a rejection looks like *)

(** What the terminal shows for one rejected token at the prompt for a hit
    or a stand, and at the prompt for another round. *)
Definition hit_stand_rejection : list event :=
  [Prompted "Enter [H] to hit or [S] to stand: "; Printed "";
   Printed ("Invalid input!" +:+ nl)].
Definition play_again_rejection : list event :=
  [Prompted "Enter [P] to play again or [Q] to quit: ";
   Printed ("Invalid input!" +:+ nl)].

(** The world after the tokens [bad] were read and each was answered with
    [rejection]; [rest] is the input that is left. *)
Definition after_rejections (rejection : list event) (bad rest : list string)
    (w : world) : world :=
  set_console (console w ++ (bad ≫= λ _, rejection)) (set_stdin rest w).

(** The six counters of a dictionary, in the order games, wins, losses,
    ties, player busts, dealer busts. *)
Definition read_counters (stats : gmap string Z) : list (option Z) :=
  (λ key, stats !! key) <$>
    [TOTAL_GAMES; TOTAL_WINS; TOTAL_LOSSES; TOTAL_TIES; PLAYER_BUSTS; DEALER_BUSTS].

(** ** Inputs of the examples *)

Definition example_entropy (n : nat) : nat := (7 * n + 3)%nat.

Definition zero_stats : gmap string Z :=
  list_to_map
    [(TOTAL_GAMES, 0); (TOTAL_WINS, 0); (TOTAL_LOSSES, 0);
     (TOTAL_TIES, 0); (PLAYER_BUSTS, 0); (DEALER_BUSTS, 0)].

(** A world whose only list is the deck [deck], with the lines [lines]
    waiting on the input. *)
Definition example_world (deck : list Card) (lines : list string) : world :=
  World [deck] 0%nat lines [] None None.

(** The player is dealt 7 and 8, the dealer 6 and 5; the next card is a 9. *)
Definition deck_stand : list Card :=
  [mkCard "Clubs" "9"; mkCard "Diamonds" "5"; mkCard "Spades" "8";
   mkCard "Hearts" "6"; mkCard "Hearts" "7"].

(** The player is dealt 10 and 9, the dealer 6 and 5; the next card is a 5. *)
Definition deck_bust : list Card :=
  [mkCard "Clubs" "5"; mkCard "Diamonds" "5"; mkCard "Spades" "9";
   mkCard "Hearts" "6"; mkCard "Hearts" "10"].

(** The dealer holds 10 and 6, and the next card is a 9. *)
Definition round_dealer_16 : round :=
  Round zero_stats
    [mkCard "Hearts" "7"; mkCard "Spades" "8"]
    [mkCard "Hearts" "10"; mkCard "Diamonds" "6"] false.

(** ** More definitions *)

(** The counters agree with one another: each is there and is not negative,
    the games are the wins, the losses and the ties together, and there are
    no more busts of the player than losses and no more busts of the dealer
    than wins. *)
Definition consistent (stats : gmap string Z) : Prop :=
  ∃ games wins losses ties player_busts dealer_busts : Z,
    stats !! TOTAL_GAMES = Some games
    ∧ stats !! TOTAL_WINS = Some wins
    ∧ stats !! TOTAL_LOSSES = Some losses
    ∧ stats !! TOTAL_TIES = Some ties
    ∧ stats !! PLAYER_BUSTS = Some player_busts
    ∧ stats !! DEALER_BUSTS = Some dealer_busts
    ∧ 0 ≤ ties
    ∧ 0 ≤ player_busts ≤ losses
    ∧ 0 ≤ dealer_busts ≤ wins
    ∧ games = wins + losses + ties.

(** [still m]: [m] leaves the list objects as they are. *)
Definition still {A : Type} (m : M A) : Prop :=
  ∀ w, post m w (λ _ w', heap w' = heap w).

(** The cards [hands] that were dealt from the deck [deck0] are, with the
    cards left in the deck, the cards of [deck0]; [heap0] is the heap before
    the first deal, and the statement is about deals that the deck [deck0]
    had the cards for. *)
Definition conserved (heap0 : list (list Card)) (cards : loc)
    (deck0 hands : list Card) (h : list (list Card)) : Prop :=
  (length hands ≤ length deck0)%nat →
  ∃ left, h = <[cards := left]> heap0 ∧ left ++ hands ≡ₚ deck0.

(** The cards of the two hands of a round. *)
Definition dealt (r : round) : list Card := player_hand r ++ dealer_hand r.

(** [n] deals from [deck], one after the other: the cards, in the order in
    which [deal_card] returns them. *)
Fixpoint deal_cards (entropy : nat → nat) (n : nat) (deck : loc) : M (list Card) :=
  match n with
  | O => mret []
  | S n' =>
      card ← deal_card entropy deck;
      rest ← deal_cards entropy n' deck;
      mret (card :: rest)
  end.

(** [terminal_only m]: [m] changes nothing but the terminal. *)
Definition terminal_only {A : Type} (m : M A) : Prop :=
  ∀ w, post m w (λ _ w', w' = set_console (console w') w).



(** ** Hand evaluation: lemmas *)

Lemma values_spec r v :
  values !! r = Some v → r ∈ ranks ∧ v = spec_value r.
Proof.
  intros H. unfold values in H.
  apply elem_of_list_to_map_2 in H.
  repeat (apply elem_of_cons in H as [H|H];
          [injection H as -> ->; split; [by vm_compute; set_solver | reflexivity]|]).
  by apply elem_of_nil in H.
Qed.

Lemma values_valid r : r ∈ ranks → values !! r = Some (spec_value r).
Proof.
  unfold ranks. intros H.
  repeat (apply elem_of_cons in H as [->|H]; [reflexivity|]).
  by apply elem_of_nil in H.
Qed.

Lemma spec_value_bounds r :
  r ∈ ranks → (r = "A" ∧ spec_value r = 11) ∨ (r ≠ "A" ∧ 2 ≤ spec_value r ≤ 10).
Proof.
  unfold ranks. intros H.
  repeat (apply elem_of_cons in H as [->|H]; [vm_compute; intuition congruence|]).
  by apply elem_of_nil in H.
Qed.

Lemma num_aces_cons card hand :
  num_aces (card :: hand) =
  if decide (rank card = "A") then S (num_aces hand) else num_aces hand.
Proof. unfold num_aces. rewrite filter_cons. by destruct (decide _). Qed.

(** The sum the code computes is the sum of the spec, when every rank is a
    key of [values]; otherwise the lookup raises. *)
Lemma sum_values_valid hand acc :
  valid_hand hand → sum_values acc hand = Some (acc + spec_sum hand).
Proof.
  intros Hv. revert acc.
  induction Hv as [|card hand Hr _ IH]; intros acc; simpl.
  - f_equal. lia.
  - rewrite (values_valid _ Hr), IH. f_equal. lia.
Qed.

Lemma sum_values_Some hand acc s :
  sum_values acc hand = Some s → valid_hand hand.
Proof.
  revert acc. induction hand as [|card hand IH]; intros acc H.
  - constructor.
  - simpl in H. destruct (values !! rank card) as [v|] eqn:Hv; [|done].
    constructor; [by apply values_spec in Hv as [? _]|by eapply IH].
Qed.

Lemma calculate_hand_valid hand t :
  calculate_hand hand = Some t → valid_hand hand.
Proof.
  unfold calculate_hand. destruct (sum_values 0 hand) eqn:Hs; [|done].
  intros _. by eapply sum_values_Some.
Qed.

(** What the loop of [calculate_hand] does: it takes 10 off [k] times, for
    some [k] up to the number of Aces, each time because the total was above
    21, and it stops below that number only with a total of at most 21. *)
Lemma demote_aces_spec n total :
  ∃ k : nat,
    (k ≤ n)%nat
    ∧ demote_aces n total = total - 10 * Z.of_nat k
    ∧ (∀ j : nat, (j < k)%nat → 21 < total - 10 * Z.of_nat j)
    ∧ (21 < total - 10 * Z.of_nat k → k = n).
Proof.
  revert total. induction n as [|n IH]; intros total; simpl.
  - exists 0%nat. split_and!; [lia|lia|lia|done].
  - case_bool_decide as Hgt.
    + destruct (IH (total - 10)) as (k & Hk & Heq & Hwhile & Hstop).
      exists (S k). split_and!; [lia|lia| |lia].
      intros [|j] Hj; [lia|]. specialize (Hwhile j). lia.
    + exists 0%nat. split_and!; [lia|lia|lia|lia].
Qed.

Lemma spec_sum_bounds hand :
  valid_hand hand →
  Z.of_nat (length hand) ≤ hard_total hand ≤ 10 * Z.of_nat (length hand).
Proof.
  unfold hard_total.
  induction 1 as [|card hand Hr _ IH]; [done|].
  rewrite num_aces_cons. change (spec_sum (card :: hand)) with
    (spec_value (rank card) + spec_sum hand).
  destruct (spec_value_bounds _ Hr) as [[HA Hv]|[HA Hv]];
    destruct (decide _); simpl length; try done; lia.
Qed.

(** The total of a hand lies between its total with every Ace as 1 and its
    total with every Ace as 11, and a total above 21 has every Ace as 1. *)
Lemma calculate_hand_bounds hand t :
  calculate_hand hand = Some t →
  hard_total hand ≤ t ≤ spec_sum hand ∧ (21 < t → t = hard_total hand).
Proof.
  intros H. pose proof (calculate_hand_valid _ _ H) as Hv.
  unfold calculate_hand in H. rewrite (sum_values_valid _ _ Hv) in H.
  injection H as <-.
  destruct (demote_aces_spec (num_aces hand) (0 + spec_sum hand))
    as (k & Hk & -> & _ & Hstop).
  unfold hard_total. split; [lia|]. intros Ht. rewrite (Hstop Ht). lia.
Qed.

Lemma calculate_hand_length hand t :
  calculate_hand hand = Some t → Z.of_nat (length hand) ≤ t.
Proof.
  intros H. pose proof (calculate_hand_valid _ _ H) as Hv.
  apply calculate_hand_bounds in H. apply spec_sum_bounds in Hv. lia.
Qed.

(** Two cards never go over 21. *)
Lemma calculate_hand_two hand t :
  length hand = 2%nat → calculate_hand hand = Some t → t ≤ 21.
Proof.
  intros Hlen H. pose proof (calculate_hand_valid _ _ H) as Hv.
  apply calculate_hand_bounds in H as [_ Hbust].
  apply spec_sum_bounds in Hv. rewrite Hlen in Hv.
  destruct (decide (21 < t)) as [Ht|]; [|lia]. specialize (Hbust Ht). lia.
Qed.

Lemma sum_values_None hand acc :
  ¬ valid_hand hand → sum_values acc hand = None.
Proof.
  intros Hn. destruct (sum_values acc hand) eqn:E; [|done].
  destruct Hn. by eapply sum_values_Some.
Qed.

Lemma spec_sum_ranks hand1 hand2 :
  rank <$> hand1 ≡ₚ rank <$> hand2 → spec_sum hand1 = spec_sum hand2.
Proof.
  assert (∀ hand, spec_sum hand = foldr Z.add 0 (spec_value <$> (rank <$> hand))) as E.
  { intros hand. induction hand as [|c hand IH]; [done|].
    change (spec_sum (c :: hand)) with (spec_value (rank c) + spec_sum hand).
    rewrite IH. done. }
  intros Hp. rewrite !E.
  apply (foldr_permutation (=) Z.add 0); [intros; lia|by rewrite Hp].
Qed.

Lemma valid_hand_ranks hand1 hand2 :
  rank <$> hand1 ≡ₚ rank <$> hand2 → valid_hand hand1 ↔ valid_hand hand2.
Proof.
  intros Hp.
  assert (∀ hand, valid_hand hand ↔ Forall (λ r, r ∈ ranks) (rank <$> hand)) as E.
  { intros hand. unfold valid_hand. by rewrite Forall_fmap. }
  by rewrite !E, Hp.
Qed.

Lemma sum_values_ranks hand1 hand2 acc :
  rank <$> hand1 ≡ₚ rank <$> hand2 → sum_values acc hand1 = sum_values acc hand2.
Proof.
  intros Hp. destruct (decide (valid_hand hand1)) as [Hv|Hv].
  - rewrite !sum_values_valid, (spec_sum_ranks _ _ Hp); [done| |done].
    by apply (valid_hand_ranks _ _ Hp).
  - rewrite !sum_values_None; [done| |done].
    by rewrite <-(valid_hand_ranks _ _ Hp).
Qed.

Lemma num_aces_ranks hand1 hand2 :
  rank <$> hand1 ≡ₚ rank <$> hand2 → num_aces hand1 = num_aces hand2.
Proof.
  intros Hp.
  assert (∀ hand, num_aces hand = length (filter (λ r, r = "A") (rank <$> hand))) as E.
  { intros hand. induction hand as [|c hand IH]; [done|].
    rewrite num_aces_cons, fmap_cons, filter_cons, IH.
    by destruct (decide _). }
  by rewrite !E, Hp.
Qed.

(** ** Hand evaluation: the claims *)

(** C3: for every hand of cards of the deck, [calculate_hand] returns the sum
    of the card values (2 to 10 at face value, 10 for J, Q and K, 11 for
    each Ace) less 10 times a number [demoted] of Aces: no more than the
    hand has Aces (an Ace is demoted at most once), every one of these
    demotions made while the total was above 21, and the loop stops short of
    all the Aces only at a total of at most 21; a total that is above 21
    after all demotions is returned as it is.  In particular two Aces give
    12, a King and an Ace 21, and 10, 9, 5 give 24, whatever the suits. *)
Theorem calculate_hand_spec :
  (∀ hand : list Card,
     valid_hand hand →
     ∃ demoted : nat,
       calculate_hand hand = Some (spec_sum hand - 10 * Z.of_nat demoted)
       ∧ (demoted ≤ num_aces hand)%nat
       ∧ (∀ j : nat, (j < demoted)%nat → 21 < spec_sum hand - 10 * Z.of_nat j)
       ∧ (21 < spec_sum hand - 10 * Z.of_nat demoted → demoted = num_aces hand))
  ∧ (∀ s1 s2, calculate_hand [mkCard s1 "A"; mkCard s2 "A"] = Some 12)
  ∧ (∀ s1 s2, calculate_hand [mkCard s1 "K"; mkCard s2 "A"] = Some 21)
  ∧ (∀ s1 s2 s3,
       calculate_hand [mkCard s1 "10"; mkCard s2 "9"; mkCard s3 "5"] = Some 24).
Proof.
  split_and!; [|done..].
  intros hand Hv. unfold calculate_hand. rewrite (sum_values_valid _ _ Hv).
  destruct (demote_aces_spec (num_aces hand) (0 + spec_sum hand))
    as (k & Hk & Heq & Hwhile & Hstop).
  exists k. rewrite Heq. split_and!; [f_equal; lia|done| |].
  - intros j Hj. specialize (Hwhile j Hj). lia.
  - intros Ht. apply Hstop. lia.
Qed.

(** C8: the total of the empty hand is 0: no exception, and no bust. *)
Theorem calculate_hand_empty : calculate_hand [] = Some 0.
Proof. reflexivity. Qed.

(** C9: the total of a hand is the same for every permutation of the hand,
    and it is a function of the multiset of the ranks alone: two hands whose
    ranks are the same up to order, whatever their suits, have the same
    total (or both raise [KeyError]). *)
Theorem calculate_hand_permutation :
  (∀ hand1 hand2 : list Card,
     hand1 ≡ₚ hand2 → calculate_hand hand1 = calculate_hand hand2)
  ∧ (∀ hand1 hand2 : list Card,
       rank <$> hand1 ≡ₚ rank <$> hand2 →
       calculate_hand hand1 = calculate_hand hand2).
Proof.
  assert (∀ hand1 hand2 : list Card,
            rank <$> hand1 ≡ₚ rank <$> hand2 →
            calculate_hand hand1 = calculate_hand hand2) as Hranks.
  { intros hand1 hand2 Hp. unfold calculate_hand.
    by rewrite (sum_values_ranks _ _ _ Hp), (num_aces_ranks _ _ Hp). }
  split; [|done].
  intros hand1 hand2 Hp. apply Hranks. by rewrite Hp.
Qed.

(** ** The deck: lemmas *)

Arguments shuffle : simpl never.
Arguments new_deck : simpl never.
Arguments pretty : simpl never.

Lemma swap_Permutation {A : Type} (x : list A) (i j : nat) : swap x i j ≡ₚ x.
Proof.
  unfold swap.
  destruct (x !! j) as [b|] eqn:Hj; [|done].
  destruct (x !! i) as [a|] eqn:Hi; [|done].
  apply Permutation_inj. split; [by rewrite !length_insert|].
  exists (λ k, if decide (k = i) then j else if decide (k = j) then i else k).
  split.
  - intros k1 k2. repeat case_decide; congruence.
  - intros k. apply lookup_lt_Some in Hj as Hj', Hi as Hi'.
    destruct (decide (k = j)) as [->|Hkj].
    + rewrite list_lookup_insert_eq by (by rewrite length_insert).
      by repeat case_decide; simplify_eq.
    + rewrite list_lookup_insert_ne by done.
      destruct (decide (k = i)) as [->|Hki].
      * by rewrite list_lookup_insert_eq.
      * by rewrite list_lookup_insert_ne.
Qed.

Lemma shuffle_Permutation {A : Type} entropy (n : nat) (x : list A) :
  shuffle entropy n x ≡ₚ x.
Proof.
  unfold shuffle. generalize (length x - 1)%nat as i. intros i.
  revert n x. induction i as [|i IH]; intros n x; simpl; [done|].
  by rewrite IH, swap_Permutation.
Qed.

Lemma new_deck_NoDup : NoDup new_deck.
Proof. apply (bool_decide_unpack _). by vm_compute. Qed.

Lemma new_deck_elem_of card :
  card ∈ new_deck ↔ suit card ∈ suits ∧ rank card ∈ ranks.
Proof.
  unfold new_deck. rewrite list_elem_of_bind. split.
  - intros (s & Hc & Hs). apply list_elem_of_bind in Hc as (r & Hc & Hr).
    apply list_elem_of_singleton in Hc as ->. done.
  - intros [Hs Hr]. exists (suit card). split; [|done].
    apply list_elem_of_bind. exists (rank card). split; [|done].
    destruct card. by apply list_elem_of_singleton.
Qed.

Lemma heap_set_last (h : list (list Card)) (x y : list Card) :
  <[length h := y]> (h ++ [x]) = h ++ [y].
Proof.
  rewrite insert_app_r_alt by lia. by rewrite Nat.sub_diag.
Qed.

Lemma heap_get_last (h : list (list Card)) (x : list Card) :
  (h ++ [x]) !! length h = Some x.
Proof. by rewrite list_lookup_middle. Qed.

(** A deal from a deck that is not empty pops its last card, in place. *)
Lemma deal_card_pops entropy (deck : loc) (w : world) (rest : list Card) (card : Card) :
  heap w !! deck = Some (rest ++ [card]) →
  deal_card entropy deck w = Done card (set_heap (<[deck := rest]> (heap w)) w).
Proof.
  intros Hd. unfold deal_card, mbind, M_bind, items, items_at. rewrite Hd. simpl.
  rewrite bool_decide_eq_false_2 by (by destruct rest).
  unfold mret, M_ret, pop, items_at. rewrite Hd. simpl.
  by rewrite last_snoc, removelast_last.
Qed.

(** A deal from an empty deck makes a new list object, shuffles it and pops
    its last card; the list object of the caller is not written. *)
Lemma deal_card_rebuilds entropy (deck : loc) (w : world) :
  items_at deck w = [] →
  ∃ (card : Card) (rest : list Card),
    shuffle entropy (draws w) new_deck = rest ++ [card]
    ∧ deal_card entropy deck w =
        Done card (set_draws (draws w + 51)%nat (set_heap (heap w ++ [rest]) w)).
Proof.
  intros Hd.
  pose proof (shuffle_Permutation entropy (draws w) new_deck) as Hp.
  destruct (shuffle entropy (draws w) new_deck) as [|card rest _] eqn:Hs using rev_ind.
  { by apply Permutation_length in Hp. }
  exists card, rest. split; [done|].
  unfold deal_card, mbind, M_bind, items. rewrite Hd.
  rewrite bool_decide_eq_true_2 by done.
  unfold create_deck, alloc, shuffle_deck, pop, items_at, mret, M_ret.
  cbn [heap set_heap set_draws draws stdin console stats_file].
  rewrite !heap_get_last. cbn [default from_option id].
  rewrite !heap_set_last, heap_get_last. cbn [default from_option id].
  rewrite Hs, last_snoc, removelast_last. reflexivity.
Qed.

(** ** The deck: the claims *)

(** C6: [create_deck] returns a new list of exactly 52 cards without
    duplicates, which holds a card for a suit and a rank exactly when the
    suit is one of the four suits and the rank one of the thirteen ranks;
    and [shuffle_deck] leaves in the deck a permutation of what the deck
    held, for every deck and whatever the random generator yields. *)
Theorem create_deck_shuffle_deck_spec :
  (∀ w : world,
     ∃ (deck : loc) (w' : world),
       create_deck w = Done deck w'
       ∧ heap w !! deck = None
       ∧ length (items_at deck w') = 52%nat
       ∧ NoDup (items_at deck w')
       ∧ ∀ s r, mkCard s r ∈ items_at deck w' ↔ s ∈ suits ∧ r ∈ ranks)
  ∧ length suits = 4%nat ∧ NoDup suits
  ∧ length ranks = 13%nat ∧ NoDup ranks
  ∧ (∀ (entropy : nat → nat) (deck : loc) (w : world),
       ∃ w' : world,
         shuffle_deck entropy deck w = Done () w'
         ∧ items_at deck w' ≡ₚ items_at deck w).
Proof.
  split_and!.
  - intros w. exists (length (heap w)), (set_heap (heap w ++ [new_deck]) w).
    unfold items_at. cbn [heap set_heap]. rewrite heap_get_last.
    cbn [default from_option id].
    split_and!; [done|by apply lookup_ge_None_2|done|apply new_deck_NoDup|].
    intros s r. apply (new_deck_elem_of (mkCard s r)).
  - done.
  - apply (bool_decide_unpack _). by vm_compute.
  - done.
  - apply (bool_decide_unpack _). by vm_compute.
  - intros entropy deck w. eexists. split; [reflexivity|].
    unfold items_at. cbn [heap set_heap set_draws].
    destruct (heap w !! deck) as [x|] eqn:Hx.
    + rewrite list_lookup_insert_eq by (by eapply lookup_lt_Some).
      apply shuffle_Permutation.
    + rewrite list_insert_ge by (by apply lookup_ge_None). by rewrite Hx.
Qed.

(** C10: for every deck that is not empty, that is, of the form
    [rest ++ [card]], [deal_card] returns its last card [card], and the deck
    is afterwards [rest]: one card less, the first cards of the deck as they
    were and in their order; no other list and nothing else of the state is
    changed. *)
Theorem deal_card_nonempty
    (entropy : nat → nat) (deck : loc) (w : world) (rest : list Card) (card : Card) :
  heap w !! deck = Some (rest ++ [card]) →
  ∃ w' : world,
    deal_card entropy deck w = Done card w'
    ∧ heap w' !! deck = Some rest
    ∧ S (length rest) = length (rest ++ [card])
    ∧ w' = set_heap (<[deck := rest]> (heap w)) w.
Proof.
  intros Hd. eexists. split; [by apply deal_card_pops|].
  cbn [heap set_heap]. split_and!; [|rewrite length_app; simpl; lia|done].
  apply list_lookup_insert_eq. by eapply lookup_lt_Some.
Qed.

(** C1 (what the code does): on an empty deck [deal_card] makes a new deck
    of 52 cards, shuffles it and returns its last card, a card of the deck;
    the 51 cards that are left are in a new list object, and the list of
    the caller is as empty as it was. *)
Theorem deal_card_empty_deck_stays_empty
    (entropy : nat → nat) (deck : loc) (w : world) :
  heap w !! deck = Some [] →
  ∃ (card : Card) (rest : list Card) (w' : world),
    deal_card entropy deck w = Done card w'
    ∧ card ∈ new_deck
    ∧ rest ++ [card] ≡ₚ new_deck
    ∧ length rest = 51%nat
    ∧ heap w' = heap w ++ [rest]
    ∧ heap w' !! deck = Some []
    ∧ items_at deck w' = [].
Proof.
  intros Hd.
  destruct (deal_card_rebuilds entropy deck w) as (card & rest & Hs & Hdeal).
  { unfold items_at. by rewrite Hd. }
  pose proof (shuffle_Permutation entropy (draws w) new_deck) as Hp.
  rewrite Hs in Hp.
  exists card, rest. eexists. split; [exact Hdeal|].
  unfold items_at. cbn [heap set_heap set_draws].
  assert ((heap w ++ [rest]) !! deck = Some []) as Hd'.
  { by apply lookup_app_l_Some. }
  split_and!; [|done| |done|done|by rewrite Hd'].
  - rewrite <-Hp. set_solver.
  - apply Permutation_length in Hp. rewrite length_app in Hp.
    change (length new_deck) with 52%nat in Hp. simpl in Hp. lia.
Qed.

(** ** Reasoning about computations *)

Lemma post_Done {A : Type} (m : M A) w Q a w' :
  post m w Q → m w = Done a w' → Q a w'.
Proof. unfold post. intros H E. by rewrite E in H. Qed.

Lemma post_ret {A : Type} (a : A) w (Q : A → world → Prop) :
  Q a w → post (mret a) w Q.
Proof. done. Qed.

Lemma post_bind {A B : Type} (m : M A) (f : A → M B) w (Q : B → world → Prop) :
  post m w (λ a w', post (f a) w' Q) → post (m ≫= f) w Q.
Proof. unfold post, mbind, M_bind. by destruct (m w). Qed.

Lemma post_mono {A : Type} (m : M A) w (Q Q' : A → world → Prop) :
  post m w Q → (∀ a w', Q a w' → Q' a w') → post m w Q'.
Proof. unfold post. destruct (m w); auto. Qed.

Lemma post_any {A : Type} (m : M A) w (Q : A → world → Prop) :
  (∀ a w', Q a w') → post m w Q.
Proof. unfold post. destruct (m w); auto. Qed.

Lemma post_or_KeyError {A : Type} (o : option A) w (Q : A → world → Prop) :
  (∀ a, o = Some a → Q a w) → post (or_KeyError o) w Q.
Proof. destruct o; [|done]. intros H. by apply H. Qed.

Lemma post_print text w (Q : unit → world → Prop) :
  Q () (set_console (console w ++ [Printed text]) w) → post (print text) w Q.
Proof. done. Qed.

Lemma post_incr key stats w (Q : gmap string Z → world → Prop) :
  (∀ v, stats !! key = Some v → Q (<[key := v + 1]> stats) w) →
  post (incr key stats) w Q.
Proof.
  intros H. unfold incr. apply post_bind, post_or_KeyError.
  intros v Hv. by apply post_ret, H.
Qed.

(** The rule of the loop invariant. *)
Lemma post_loop {S A : Type} (I : S → world → Prop) (body : S → M (S + A))
    (fuel : nat) (s : S) w (Q : A → world → Prop) :
  I s w →
  (∀ s w, I s w →
     post (body s) w (λ r w', match r with inl s' => I s' w' | inr a => Q a w' end)) →
  post (loop fuel body s) w Q.
Proof.
  intros HI Hbody. revert s w HI.
  induction fuel as [|fuel IH]; intros s w HI; [done|].
  simpl. apply post_bind. eapply post_mono; [by apply Hbody|].
  intros [s'|a] w' H; [by apply IH|by apply post_ret].
Qed.

Lemma halts_bind {A B : Type} (m : M A) (f : A → M B) w :
  halts m w → (∀ a w', m w = Done a w' → halts (f a) w') → halts (m ≫= f) w.
Proof.
  unfold halts, mbind, M_bind. intros Hm Hf.
  destruct (m w) as [a w'| |] eqn:E; [by apply Hf|done|done].
Qed.

Lemma halts_ret {A : Type} (a : A) w : halts (mret a) w.
Proof. done. Qed.

Lemma halts_raise {A : Type} (e : exn) w : halts (raise e : M A) w.
Proof. done. Qed.

Lemma halts_or_KeyError {A : Type} (o : option A) w : halts (or_KeyError o) w.
Proof. by destruct o. Qed.

Lemma halts_print text w : halts (print text) w.
Proof. done. Qed.

Lemma halts_input prompt w : halts (input prompt) w.
Proof. unfold halts, input. by destruct (stdin w). Qed.

Lemma halts_incr key stats w : halts (incr key stats) w.
Proof. unfold halts, incr, mbind, M_bind. by destruct (stats !! key). Qed.

Lemma halts_for_each {A : Type} (l : list A) (body : A → M unit) w :
  (∀ a w, halts (body a) w) → halts (for_each l body) w.
Proof.
  intros Hbody. revert w. induction l as [|a l IH]; intros w; [done|].
  simpl. apply halts_bind; [done|]. intros _ w' _. apply IH.
Qed.

(** A loop whose body halts, and lowers a bound below the fuel each time it
    goes round again, halts. *)
Lemma halts_loop {S A : Type} (V : S → world → nat) (body : S → M (S + A))
    (fuel : nat) (s : S) w :
  (∀ s w, halts (body s) w) →
  (∀ s w s' w', body s w = Done (inl s') w' → (V s' w' < V s w)%nat) →
  (V s w < fuel)%nat →
  halts (loop fuel body s) w.
Proof.
  intros Hbody Hdown. revert s w.
  induction fuel as [|fuel IH]; intros s w Hlt; [lia|].
  simpl. apply halts_bind; [done|].
  intros [s'|a] w' E; [|done]. apply IH. specialize (Hdown _ _ _ _ E). lia.
Qed.

Ltac rsimpl :=
  cbn [game_stats player_hand dealer_hand bust
       set_game_stats set_player_hand set_dealer_hand set_bust] in *.

(** A step whose result and world do not matter. *)
Ltac skip_step := apply post_bind, post_any; intros ? ?.

Section GameLemmas.

Variable entropy : nat → nat.
Variable upper : string → string.

Lemma post_incr_bump key stats w (Q : gmap string Z → world → Prop) :
  (∀ stats', bump key stats stats' → Q stats' w) → post (incr key stats) w Q.
Proof. intros H. apply post_incr. intros v Hv. apply H. by exists v. Qed.

(** What one turn of the player's loop does to the variables of the round. *)
Lemma player_step_spec cards r w :
  post (player_step entropy upper cards r) w (λ res w',
    match res with
    | inl r' =>
        game_stats r' = game_stats r ∧ dealer_hand r' = dealer_hand r
        ∧ bust r' = bust r
        ∧ (player_hand r' = player_hand r
           ∨ ∃ card t, player_hand r' = player_hand r ++ [card]
                       ∧ calculate_hand (player_hand r') = Some t ∧ t ≤ 21)
    | inr r' =>
        dealer_hand r' = dealer_hand r
        ∧ (r' = r
           ∨ ∃ card t stats1,
               player_hand r' = player_hand r ++ [card]
               ∧ calculate_hand (player_hand r') = Some t ∧ 21 < t
               ∧ bust r' = true
               ∧ bump PLAYER_BUSTS (game_stats r) stats1
               ∧ bump TOTAL_LOSSES stats1 (game_stats r')
               ∧ last (console w') = Some (Printed ("RESULT: Bust! You lose." +:+ nl)))
    end).
Proof.
  unfold player_step. do 2 skip_step.
  case_bool_decide as Hhit; [|case_bool_decide as Hstand].
  - apply post_bind, post_any. intros card w1. cbv zeta. rsimpl.
    apply post_bind, post_or_KeyError. intros t Ht.
    do 3 skip_step.
    case_bool_decide as Hbust.
    + apply post_bind, post_incr_bump. intros stats1 H1.
      apply post_bind, post_incr_bump. intros stats2 H2. rsimpl.
      apply post_bind, post_or_KeyError. intros dt Hdt.
      do 3 skip_step.
      apply post_bind, post_print, post_ret. rsimpl.
      split; [done|]. right. exists card, t, stats1.
      split_and!; try done. cbn [console set_console]. apply last_snoc.
    + apply post_ret. rsimpl. split_and!; try done.
      right. exists card, t. split_and!; [done|done|lia].
  - apply post_ret. split; [done|by left].
  - skip_step. apply post_ret. split_and!; try done. by left.
Qed.

(** The player's turn: the dealer's hand is not touched; the player's hand
    grows by the cards of the hits; and either the turn ends on a bust, with
    the two counters of a bust raised and the message of the bust the last
    thing written, or it ends on a stand, the counters as they were and the
    total, if there was a hit, at most 21. *)
Lemma player_turn_spec fuel cards r w :
  post (player_turn entropy upper fuel cards r) w (λ r' w',
    dealer_hand r' = dealer_hand r
    ∧ ∃ hits,
        player_hand r' = player_hand r ++ hits
        ∧ ((game_stats r' = game_stats r ∧ bust r' = bust r
            ∧ (hits = [] ∨ ∃ t, calculate_hand (player_hand r') = Some t ∧ t ≤ 21))
           ∨ (∃ t stats1,
                calculate_hand (player_hand r') = Some t ∧ 21 < t
                ∧ bust r' = true
                ∧ bump PLAYER_BUSTS (game_stats r) stats1
                ∧ bump TOTAL_LOSSES stats1 (game_stats r')
                ∧ last (console w') = Some (Printed ("RESULT: Bust! You lose." +:+ nl))))).
Proof.
  unfold player_turn.
  apply (post_loop (λ r1 _,
    game_stats r1 = game_stats r ∧ dealer_hand r1 = dealer_hand r
    ∧ bust r1 = bust r
    ∧ ∃ hits, player_hand r1 = player_hand r ++ hits
              ∧ (hits = [] ∨ ∃ t, calculate_hand (player_hand r1) = Some t ∧ t ≤ 21))).
  { split_and!; try done. exists []. split; [by rewrite app_nil_r|by left]. }
  clear w. intros r1 w (Hs & Hd & Hb & hits & Hp & Ht).
  eapply post_mono; [apply player_step_spec|].
  intros [r'|r'] w'.
  - intros (Hs' & Hd' & Hb' & Hp').
    split_and!; [congruence..|].
    destruct Hp' as [Hp'|(card & t & Hp' & Ht' & Hle)].
    + exists hits. rewrite Hp'. split; [done|].
      destruct Ht as [?|(t & ? & ?)]; [by left|by right; exists t].
    + exists (hits ++ [card]). rewrite Hp', Hp, <-app_assoc. split; [done|].
      right. exists t. split; [|done]. by rewrite Hp', Hp, <-app_assoc in Ht'.
  - intros (Hd' & [->|(card & t & stats1 & Hp' & Ht' & Hgt & Hb' & Hb1 & Hb2 & Hlast)]).
    + split; [done|]. exists hits. split; [done|]. by left.
    + split; [congruence|]. exists (hits ++ [card]).
      rewrite Hp', Hp, <-app_assoc. split; [done|].
      right. exists t, stats1. rewrite <-Hs. split_and!; try done.
      by rewrite Hp', Hp, <-app_assoc in Ht'.
Qed.

(** What one turn of the dealer's loop does. *)
Lemma dealer_step_spec cards r w :
  post (dealer_step entropy cards r) w (λ res w',
    ∃ total, calculate_hand (dealer_hand r) = Some total
    ∧ match res with
      | inl r' =>
          total < 17
          ∧ game_stats r' = game_stats r ∧ player_hand r' = player_hand r
          ∧ bust r' = bust r
          ∧ ∃ card t, dealer_hand r' = dealer_hand r ++ [card]
                      ∧ calculate_hand (dealer_hand r') = Some t ∧ t ≤ 21
      | inr r' =>
          player_hand r' = player_hand r ∧ bust r' = bust r
          ∧ ((17 ≤ total ∧ r' = r ∧ w' = w)
             ∨ (total < 17
                ∧ ∃ card t stats1,
                    dealer_hand r' = dealer_hand r ++ [card]
                    ∧ calculate_hand (dealer_hand r') = Some t ∧ 21 < t
                    ∧ bump DEALER_BUSTS (game_stats r) stats1
                    ∧ bump TOTAL_WINS stats1 (game_stats r')))
      end).
Proof.
  unfold dealer_step.
  apply post_bind, post_or_KeyError. intros total Htotal.
  case_bool_decide as Hlow.
  - skip_step. apply post_bind, post_any. intros card w1. cbv zeta. rsimpl.
    apply post_bind, post_or_KeyError. intros t Ht.
    do 3 skip_step.
    case_bool_decide as Hbust.
    + apply post_bind, post_incr_bump. intros stats1 H1.
      apply post_bind, post_incr_bump. intros stats2 H2. rsimpl.
      skip_step. apply post_ret. rsimpl.
      exists total. split_and!; try done. right. split; [done|].
      by exists card, t, stats1.
    + apply post_ret. rsimpl. exists total. split_and!; try done.
      exists card, t. split_and!; [done|done|lia].
  - apply post_ret. exists total. split_and!; try done. left. split; [lia|done].
Qed.

(** The dealer's loop.  The cards [drawn] are added to the dealer's hand one
    at a time, each at a total below 17, and the loop ends at a total of 17
    or more; the loop ends on a bust exactly when a drawn card took the total
    above 21, and then the two counters of a dealer bust are raised. *)
Lemma dealer_draws_spec fuel cards r w :
  post (dealer_draws entropy fuel cards r) w (λ r' w',
    player_hand r' = player_hand r ∧ bust r' = bust r
    ∧ ∃ drawn t',
        dealer_hand r' = dealer_hand r ++ drawn
        ∧ (∀ k, (k < length drawn)%nat →
             ∃ t, calculate_hand (dealer_hand r ++ take k drawn) = Some t ∧ t < 17)
        ∧ calculate_hand (dealer_hand r') = Some t' ∧ 17 ≤ t'
        ∧ ((game_stats r' = game_stats r
            ∧ ((drawn = [] ∧ w' = w) ∨ (drawn ≠ [] ∧ t' ≤ 21)))
           ∨ (drawn ≠ [] ∧ 21 < t'
              ∧ ∃ stats1, bump DEALER_BUSTS (game_stats r) stats1
                          ∧ bump TOTAL_WINS stats1 (game_stats r')))).
Proof.
  unfold dealer_draws.
  apply (post_loop (λ r1 w1,
    game_stats r1 = game_stats r ∧ player_hand r1 = player_hand r
    ∧ bust r1 = bust r
    ∧ ∃ drawn,
        dealer_hand r1 = dealer_hand r ++ drawn
        ∧ (∀ k, (k < length drawn)%nat →
             ∃ t, calculate_hand (dealer_hand r ++ take k drawn) = Some t ∧ t < 17)
        ∧ ((drawn = [] ∧ w1 = w)
           ∨ (drawn ≠ [] ∧ ∃ t, calculate_hand (dealer_hand r1) = Some t ∧ t ≤ 21)))).
  { split_and!; try done. exists []. rewrite app_nil_r.
    split_and!; [done|simpl; lia|by left]. }
  intros r1 w1 (Hs & Hp & Hb & drawn & Hd & Hlow & Hinv).
  eapply post_mono; [apply dealer_step_spec|].
  assert (∀ card total,
            calculate_hand (dealer_hand r1) = Some total → total < 17 →
            ∀ k, (k < length (drawn ++ [card]))%nat →
              ∃ t, calculate_hand (dealer_hand r ++ take k (drawn ++ [card])) = Some t
                   ∧ t < 17) as Hlow'.
  { intros card total Htotal Hlt k Hk. rewrite length_app in Hk. simpl in Hk.
    destruct (decide (k < length drawn)%nat) as [Hk'|Hk'].
    - rewrite take_app_le by lia. by apply Hlow.
    - replace k with (length drawn) by lia. rewrite take_app_length, <-Hd. eauto. }
  intros [r'|r'] w' (total & Htotal & H).
  - destruct H as (Hlt & Hs' & Hp' & Hb' & card & t & Hd' & Ht & Hle).
    split_and!; [congruence..|]. exists (drawn ++ [card]).
    split_and!; [by rewrite Hd', Hd, <-app_assoc|by eapply Hlow'|].
    right. split; [by destruct drawn|by exists t].
  - destruct H as (Hp' & Hb' & [(Hge & -> & ->)|(Hlt & card & t & stats1 & Hd' & Ht & Hgt & H1 & H2)]).
    + split_and!; [done..|]. exists drawn, total. split_and!; try done.
      left. split; [done|].
      destruct Hinv as [?|[? (t & Ht & ?)]]; [by left|right].
      split; [done|]. congruence.
    + split_and!; [congruence..|]. exists (drawn ++ [card]), t.
      split_and!; [by rewrite Hd', Hd, <-app_assoc|by eapply Hlow'|done|lia|].
      right. split_and!; [by destruct drawn|done|].
      exists stats1. by rewrite <-Hs.
Qed.

(** The dealer's turn after a player who did not bust. *)
Lemma dealer_turn_spec fuel cards r w :
  bust r = false →
  post (dealer_turn entropy fuel cards r) w (λ r' w',
    player_hand r' = player_hand r ∧ bust r' = false
    ∧ ∃ drawn t',
        dealer_hand r' = dealer_hand r ++ drawn
        ∧ calculate_hand (dealer_hand r') = Some t' ∧ 17 ≤ t'
        ∧ ((game_stats r' = game_stats r ∧ (drawn = [] ∨ t' ≤ 21))
           ∨ (21 < t'
              ∧ ∃ stats1, bump DEALER_BUSTS (game_stats r) stats1
                          ∧ bump TOTAL_WINS stats1 (game_stats r')))).
Proof.
  intros Hb. unfold dealer_turn. rewrite Hb.
  apply post_bind, post_or_KeyError. intros total Htotal.
  do 3 skip_step.
  eapply post_mono; [apply dealer_draws_spec|].
  intros r' wend (Hp & Hb' & drawn & t' & Hd & _ & Ht' & Hge & H).
  split_and!; [done|congruence|]. exists drawn, t'. split_and!; try done.
  destruct H as [(Hs & [[-> _]|[_ ?]])|(_ & ? & ?)]; [left|left|right]; auto.
Qed.

(** The comparison of the totals raises at most one counter. *)
Lemma compare_totals_spec r w :
  post (compare_totals r) w (λ r' w',
    player_hand r' = player_hand r ∧ dealer_hand r' = dealer_hand r
    ∧ bust r' = bust r
    ∧ ∃ pt dt,
        calculate_hand (player_hand r) = Some pt
        ∧ calculate_hand (dealer_hand r) = Some dt
        ∧ ((pt = dt ∧ bump TOTAL_TIES (game_stats r) (game_stats r'))
           ∨ (dt < pt ∧ pt ≤ 21 ∧ bump TOTAL_WINS (game_stats r) (game_stats r'))
           ∨ (pt < dt ∧ dt ≤ 21 ∧ bump TOTAL_LOSSES (game_stats r) (game_stats r'))
           ∨ (pt ≠ dt ∧ ¬ (dt < pt ∧ pt ≤ 21) ∧ ¬ (pt < dt ∧ dt ≤ 21)
              ∧ r' = r ∧ w' = w))).
Proof.
  unfold compare_totals.
  apply post_bind, post_or_KeyError. intros pt Hpt.
  apply post_bind, post_or_KeyError. intros dt Hdt. cbv zeta.
  case_bool_decide as Htie;
    [|destruct (bool_decide (dt < pt) && bool_decide (pt ≤ 21)) eqn:Hwin;
      [|destruct (bool_decide (pt < dt) && bool_decide (dt ≤ 21)) eqn:Hloss]].
  - apply post_bind, post_incr_bump. intros stats' Hs. do 2 skip_step.
    apply post_ret. rsimpl. split_and!; try done. exists pt, dt. auto.
  - apply andb_true_iff in Hwin as [?%bool_decide_eq_true ?%bool_decide_eq_true].
    apply post_bind, post_incr_bump. intros stats' Hs. do 2 skip_step.
    apply post_ret. rsimpl. split_and!; try done. exists pt, dt.
    split_and!; try done. right. left. done.
  - apply andb_true_iff in Hloss as [?%bool_decide_eq_true ?%bool_decide_eq_true].
    apply post_bind, post_incr_bump. intros stats' Hs. do 2 skip_step.
    apply post_ret. rsimpl. split_and!; try done. exists pt, dt.
    split_and!; try done. right. right. left. done.
  - apply post_ret. split_and!; try done. exists pt, dt.
    split_and!; try done. right. right. right.
    apply andb_false_iff in Hwin, Hloss.
    rewrite !bool_decide_eq_false in Hwin, Hloss. split_and!; try done; tauto.
Qed.

Lemma deal_hands_spec n cards r w :
  post (deal_hands entropy n cards r) w (λ r' _,
    game_stats r' = game_stats r ∧ bust r' = bust r
    ∧ length (player_hand r') = (length (player_hand r) + n)%nat
    ∧ length (dealer_hand r') = (length (dealer_hand r) + n)%nat).
Proof.
  revert r w. induction n as [|n IH]; intros r w; simpl.
  - apply post_ret. split_and!; try done; lia.
  - apply post_bind, post_any. intros c1 w1.
    apply post_bind, post_any. intros c2 w2.
    eapply post_mono; [apply IH|]. intros r' w'. rsimpl.
    rewrite !length_app. simpl. intros (-> & -> & -> & ->).
    split_and!; try done; lia.
Qed.

Lemma post_save stats w (Q : unit → world → Prop) :
  Q () (set_stats_file (Some stats) w) → post (save_game_stats stats) w Q.
Proof. done. Qed.

(** How a round can end.  After the count of the games, a completed round
    has raised the counters of exactly one of five outcomes: a bust of the
    player, a bust of the dealer, a tie, a win or a loss on the totals. *)
Lemma game_round_outcome fuel cards stats w :
  post (game_round entropy upper fuel cards stats) w (λ r w',
  ∃ stats1 pt dt,
    bump TOTAL_GAMES stats stats1
    ∧ calculate_hand (player_hand r) = Some pt
    ∧ calculate_hand (dealer_hand r) = Some dt
    ∧ ((bust r = true ∧ 21 < pt ∧ length (dealer_hand r) = 2%nat
        ∧ (∃ stats2, bump PLAYER_BUSTS stats1 stats2
                     ∧ bump TOTAL_LOSSES stats2 (game_stats r))
        ∧ last (console w') = Some (Printed ("RESULT: Bust! You lose." +:+ nl)))
       ∨ (bust r = false ∧ pt ≤ 21 ∧ 21 < dt
          ∧ ∃ stats2, bump DEALER_BUSTS stats1 stats2
                      ∧ bump TOTAL_WINS stats2 (game_stats r))
       ∨ (bust r = false ∧ pt ≤ 21 ∧ 17 ≤ dt ≤ 21
          ∧ ((pt = dt ∧ bump TOTAL_TIES stats1 (game_stats r))
             ∨ (dt < pt ∧ bump TOTAL_WINS stats1 (game_stats r))
             ∨ (pt < dt ∧ bump TOTAL_LOSSES stats1 (game_stats r)))))).
Proof.
  unfold game_round.
  apply post_bind, post_incr_bump. intros stats1 Hgames. cbv zeta.
  apply post_bind. eapply post_mono; [apply deal_hands_spec|].
  intros r1 w1 (Hs1 & Hb1 & Hp1 & Hd1). simpl in Hs1, Hb1, Hp1, Hd1.
  skip_step.
  apply post_bind. eapply post_mono; [apply player_turn_spec|].
  intros r2 w2 (Hd2 & hits & Hp2 & Hturn).
  destruct Hturn as [(Hs2 & Hb2 & Hpt)|(t & stats2 & Ht & Hgt & Hb2 & Hbump1 & Hbump2 & Hlast)].
  - (* the player stands *)
    assert (∀ pt, calculate_hand (player_hand r2) = Some pt → pt ≤ 21) as Hpt'.
    { intros pt Hcalc. destruct Hpt as [->|(t & Ht & Hle)]; [|congruence].
      eapply calculate_hand_two; [|done]. by rewrite Hp2, app_nil_r. }
    apply post_bind. eapply post_mono; [apply dealer_turn_spec; congruence|].
    intros r3 w3 (Hp3 & Hb3 & drawn & t' & Hd3 & Ht' & Hge & Hdealer).
    apply post_bind. eapply post_mono; [apply compare_totals_spec|].
    intros r4 w4 (Hp4 & Hd4 & Hb4 & pt & dt & Hcp & Hcd & Hcmp).
    apply post_bind, post_save, post_ret.
    rewrite Hp4, Hd4, Hb4, Hb3. exists stats1, pt, dt. split_and!; try done.
    assert (dt = t') as -> by congruence.
    assert (pt ≤ 21) as Hple by (apply Hpt'; congruence).
    destruct Hdealer as [(Hs3 & Hno)|(Hbust & stats2 & Hbump1 & Hbump2)].
    + assert (t' ≤ 21) as Hdle.
      { destruct Hno as [->|?]; [|done].
        eapply calculate_hand_two; [|done]. by rewrite Hd3, app_nil_r, Hd2. }
      right. right. split_and!; try done.
      rewrite <-Hs1, <-Hs2, <-Hs3.
      destruct Hcmp as [[? ?]|[(? & ? & ?)|[(? & ? & ?)|(? & ? & ? & _)]]];
        [by left|by right; left|by right; right|lia].
    + right. left. split_and!; try done.
      destruct Hcmp as [[? ?]|[(? & ? & ?)|[(? & ? & ?)|(_ & _ & _ & -> & _)]]];
        [lia..|].
      exists stats2. by rewrite <-Hs1, <-Hs2.
  - (* the player busts *)
    unfold dealer_turn. rewrite Hb2.
    apply post_bind, post_ret.
    apply post_bind. eapply post_mono; [apply compare_totals_spec|].
    intros r4 w4 (Hp4 & Hd4 & Hb4 & pt & dt & Hcp & Hcd & Hcmp).
    apply post_bind, post_save, post_ret.
    rewrite Hp4, Hd4, Hb4. exists stats1, pt, dt. split_and!; try done.
    assert (pt = t) as -> by congruence.
    assert (dt ≤ 21) as Hdle.
    { eapply calculate_hand_two; [|done]. by rewrite Hd2. }
    destruct Hcmp as [[? ?]|[(? & ? & ?)|[(? & ? & ?)|(_ & _ & _ & -> & ->)]]];
      [lia..|].
    left. split_and!; try done; [congruence|].
    exists stats2. by rewrite <-Hs1.
Qed.

(** The counters after a chain of increments of different keys. *)
Ltac counters :=
  repeat match goal with
  | H : bump _ _ _ |- _ => destruct H as (? & ? & ->)
  end;
  unfold increased, unchanged, TOTAL_GAMES, TOTAL_WINS, TOTAL_LOSSES,
    TOTAL_TIES, PLAYER_BUSTS, DEALER_BUSTS in *;
  repeat split; simplify_map_eq; eauto.

(** ** The round: the claims *)

(** C2: in every completed round [total_games] goes up by exactly 1, and
    exactly one of [total_wins], [total_losses] and [total_ties] goes up, by
    exactly 1, the other two staying as they were: also when a bust of the
    player or of the dealer had counted the round before the totals are
    compared. *)
Theorem round_counts_one_outcome fuel cards stats w r w' :
  game_round entropy upper fuel cards stats w = Done r w' →
  increased TOTAL_GAMES stats (game_stats r)
  ∧ ((increased TOTAL_WINS stats (game_stats r)
      ∧ unchanged TOTAL_LOSSES stats (game_stats r)
      ∧ unchanged TOTAL_TIES stats (game_stats r))
     ∨ (unchanged TOTAL_WINS stats (game_stats r)
        ∧ increased TOTAL_LOSSES stats (game_stats r)
        ∧ unchanged TOTAL_TIES stats (game_stats r))
     ∨ (unchanged TOTAL_WINS stats (game_stats r)
        ∧ unchanged TOTAL_LOSSES stats (game_stats r)
        ∧ increased TOTAL_TIES stats (game_stats r))).
Proof.
  intros Hrun.
  destruct (post_Done _ _ _ _ _ (game_round_outcome fuel cards stats w) Hrun)
    as (stats1 & pt & dt & Hgames & _ & _ & Hend).
  destruct Hend as
    [(_ & _ & _ & (stats2 & H1 & H2) & _)
    |[(_ & _ & _ & stats2 & H1 & H2)
     |(_ & _ & _ & [[_ H1]|[[_ H1]|[_ H1]]])]].
  - split; [by counters|]. right. left. by counters.
  - split; [by counters|]. left. by counters.
  - split; [by counters|]. right. right. by counters.
  - split; [by counters|]. left. by counters.
  - split; [by counters|]. right. left. by counters.
Qed.

(** C5: in a completed round in which a hit took the player's total above 21
    (the round then has its flag [bust] set, and only then), the round
    counts one [player_busts] and one [total_losses] beside the game itself,
    and no win, tie or dealer bust; the dealer's turn does not take place:
    the dealer's hand is still the two cards dealt at the start, and the
    message of the bust is the last thing the round writes. *)
Theorem player_bust_round fuel cards stats w r w' :
  game_round entropy upper fuel cards stats w = Done r w' →
  (bust r = true ↔ ∃ t, calculate_hand (player_hand r) = Some t ∧ 21 < t)
  ∧ (bust r = true →
     increased TOTAL_GAMES stats (game_stats r)
     ∧ increased PLAYER_BUSTS stats (game_stats r)
     ∧ increased TOTAL_LOSSES stats (game_stats r)
     ∧ unchanged TOTAL_WINS stats (game_stats r)
     ∧ unchanged TOTAL_TIES stats (game_stats r)
     ∧ unchanged DEALER_BUSTS stats (game_stats r)
     ∧ length (dealer_hand r) = 2%nat
     ∧ last (console w') = Some (Printed ("RESULT: Bust! You lose." +:+ nl))).
Proof.
  intros Hrun.
  destruct (post_Done _ _ _ _ _ (game_round_outcome fuel cards stats w) Hrun)
    as (stats1 & pt & dt & Hgames & Hpt & _ & Hend).
  destruct Hend as
    [(Hb & Hgt & Hlen & (stats2 & H1 & H2) & Hlast)
    |[(Hb & Hle & _)|(Hb & Hle & _)]].
  - split; [split; [by exists pt|done]|]. intros _.
    split_and!; try done; by counters.
  - split; [|congruence]. split; [congruence|].
    intros (t & Ht & Hgt). assert (t = pt) by congruence. lia.
  - split; [|congruence]. split; [congruence|].
    intros (t & Ht & Hgt). assert (t = pt) by congruence. lia.
Qed.

(** ** A round in a well-formed state raises no [KeyError] or [IndexError] *)

Lemma wpx_bind {A B : Type} E (m : M A) (f : A → M B) w (Q : B → world → Prop) :
  wpx E m w (λ a w', wpx E (f a) w' Q) → wpx E (m ≫= f) w Q.
Proof. unfold wpx, mbind, M_bind. by destruct (m w). Qed.

Lemma wpx_mono {A : Type} (E E' : exn → Prop) (m : M A) w (Q Q' : A → world → Prop) :
  wpx E m w Q → (∀ e, E e → E' e) → (∀ a w', Q a w' → Q' a w') → wpx E' m w Q'.
Proof. unfold wpx. destruct (m w); auto. Qed.

Lemma wpx_Done {A : Type} (m : M A) w (Q : A → world → Prop) :
  wpx (λ _, False) m w Q → ∃ a w', m w = Done a w' ∧ Q a w'.
Proof. unfold wpx. destruct (m w) as [a w'| |]; [eauto|done|done]. Qed.

Lemma tame_ret {A : Type} cards (a : A) (P : A → Prop) : P a → tame cards (mret a) P.
Proof. by intros HP w Hw. Qed.

Lemma tame_bind {A B : Type} cards (m : M A) (f : A → M B) (P : A → Prop) (Q : B → Prop) :
  tame cards m P → (∀ a, P a → tame cards (f a) Q) → tame cards (m ≫= f) Q.
Proof.
  intros Hm Hf w Hw. apply wpx_bind.
  eapply wpx_mono; [by apply Hm|done|]. intros a w1 (HP & Hw1 & Hin1).
  eapply wpx_mono; [by apply Hf|done|]. intros b w2 (HQ & Hw2 & Hin2).
  split_and!; [done|done|congruence].
Qed.

Lemma tame_mono {A : Type} cards (m : M A) (P P' : A → Prop) :
  tame cards m P → (∀ a, P a → P' a) → tame cards m P'.
Proof.
  intros Hm HP w Hw. eapply wpx_mono; [by apply Hm|done|].
  intros a w' (? & ? & ?). auto.
Qed.

Lemma tame_or_KeyError {A : Type} cards (o : option A) (a : A) :
  o = Some a → tame cards (or_KeyError o) (λ a', a' = a).
Proof. by intros -> w Hw. Qed.

Lemma tame_print cards text : tame cards (print text) (λ _, True).
Proof. by intros w Hw. Qed.

Lemma tame_incr cards key stats v :
  stats !! key = Some v →
  tame cards (incr key stats) (λ stats', stats' = <[key := v + 1]> stats).
Proof.
  intros Hv. unfold incr. eapply tame_bind; [by apply tame_or_KeyError|].
  intros ? ->. by apply tame_ret.
Qed.

Lemma tame_save cards stats : tame cards (save_game_stats stats) (λ _, True).
Proof. by intros w Hw. Qed.

Lemma tame_for_each {A : Type} cards (l : list A) (body : A → M unit) :
  (∀ a, tame cards (body a) (λ _, True)) → tame cards (for_each l body) (λ _, True).
Proof.
  intros Hbody. induction l as [|a l IH]; [by apply tame_ret|].
  simpl. eapply tame_bind; [apply Hbody|]. by intros _ _.
Qed.

Lemma tame_display_hand cards hand show_all :
  hand ≠ [] → tame cards (display_hand hand show_all) (λ _, True).
Proof.
  destruct hand as [|card hand]; [done|]. intros _. simpl.
  eapply tame_bind; [apply tame_print|]. intros _ _.
  destruct show_all; [|apply tame_print].
  apply tame_for_each. intros. apply tame_print.
Qed.

Lemma valid_hand_new_deck : valid_hand new_deck.
Proof. apply Forall_forall. intros card Hc. by apply new_deck_elem_of in Hc as [_ ?]. Qed.

(** A deal from a deck of valid cards gives a valid card and leaves such a
    deck, whether the deck was empty or not. *)
Lemma tame_deal_card cards :
  tame cards (deal_card entropy cards) (λ card, rank card ∈ ranks).
Proof.
  intros w Hw. unfold wpx.
  destruct (items_at cards w) as [|c x] eqn:Hx using rev_ind.
  - destruct (deal_card_rebuilds entropy cards w Hx) as (card & rest & Hs & ->).
    pose proof (shuffle_Permutation entropy (draws w) new_deck) as Hp.
    rewrite Hs in Hp.
    assert (valid_hand (rest ++ [card])) as [Hrest Hcard]%Forall_app.
    { unfold valid_hand. rewrite Hp. apply valid_hand_new_deck. }
    split_and!; [by apply (Forall_inv Hcard)| |done].
    unfold items_at. cbn [heap set_heap set_draws].
    destruct ((heap w ++ [rest]) !! cards) as [y|] eqn:Hy; [|constructor].
    apply lookup_app_Some in Hy as [Hy|[_ Hy]].
    + unfold items_at, loc in Hx. rewrite Hy in Hx. simpl in Hx. subst y. constructor.
    + apply list_lookup_singleton_Some in Hy as [_ <-]. done.
  - clear IHx. apply Forall_app in Hw as [Hx' Hc%Forall_inv].
    assert (heap w !! cards = Some (x ++ [c])) as Hheap.
    { unfold items_at in Hx. destruct (heap w !! cards) as [y|]; simpl in Hx.
      - by rewrite Hx.
      - by destruct x. }
    rewrite (deal_card_pops entropy cards w x c Hheap).
    split_and!; [done| |done].
    unfold items_at. cbn [heap set_heap].
    rewrite list_lookup_insert_eq by (by eapply lookup_lt_Some). done.
Qed.

Lemma calculate_hand_Some hand :
  valid_hand hand → ∃ t, calculate_hand hand = Some t.
Proof.
  intros Hv. unfold calculate_hand. rewrite (sum_values_valid _ _ Hv). eauto.
Qed.

Lemma tame_calculate_hand cards hand :
  valid_hand hand →
  tame cards (or_KeyError (calculate_hand hand)) (λ t, calculate_hand hand = Some t).
Proof.
  intros (t & Ht)%calculate_hand_Some. rewrite Ht.
  eapply tame_mono; [by apply tame_or_KeyError|]. by intros ? ->.
Qed.

Lemma has_counters_insert key v stats :
  has_counters stats → has_counters (<[key := v]> stats).
Proof.
  unfold has_counters. intros H. eapply Forall_impl; [exact H|]. simpl. intros k [x Hx].
  destruct (decide (key = k)) as [->|Hne].
  - rewrite lookup_insert_eq. eauto.
  - rewrite lookup_insert_ne by done. eauto.
Qed.

Lemma has_counters_lookup key stats :
  has_counters stats →
  key ∈ [TOTAL_GAMES; TOTAL_WINS; TOTAL_LOSSES; TOTAL_TIES; PLAYER_BUSTS; DEALER_BUSTS] →
  ∃ v, stats !! key = Some v.
Proof. unfold has_counters. rewrite Forall_forall. intros H Hk. by apply H. Qed.

(** [stats[key] += 1] for one of the six counters. *)
Lemma tame_incr_counter cards key stats :
  has_counters stats →
  key ∈ [TOTAL_GAMES; TOTAL_WINS; TOTAL_LOSSES; TOTAL_TIES; PLAYER_BUSTS; DEALER_BUSTS] →
  tame cards (incr key stats) has_counters.
Proof.
  intros Hs Hk. destruct (has_counters_lookup key stats Hs Hk) as [v Hv].
  eapply tame_mono; [by apply tame_incr|].
  intros ? ->. by apply has_counters_insert.
Qed.

Lemma tame_loop {S A : Type} cards (I : S → Prop) (V : S → nat)
    (body : S → M (S + A)) (Q : A → Prop) (fuel : nat) (s : S) :
  I s → (V s < fuel)%nat →
  (∀ s, I s →
     tame cards (body s) (λ r,
       match r with inl s' => I s' ∧ (V s' < V s)%nat | inr a => Q a end)) →
  tame cards (loop fuel body s) Q.
Proof.
  intros HI HV Hbody. revert s HI HV.
  induction fuel as [|fuel IH]; intros s HI HV; [lia|].
  simpl. eapply tame_bind; [by apply Hbody|].
  intros [s'|a] H; [|by apply tame_ret].
  destruct H as [HI' HV']. apply IH; [done|lia].
Qed.

(** A step that reads a line and then goes on without reading. *)
Lemma input_then_tame {A : Type} (E : exn → Prop) cards prompt (f : string → M A)
    (P : A → Prop) w :
  E EOFError → valid_hand (items_at cards w) →
  (∀ line, tame cards (f line) P) →
  wpx E (input prompt ≫= f) w (λ a w',
    P a ∧ valid_hand (items_at cards w')
    ∧ (length (stdin w') < length (stdin w))%nat).
Proof.
  intros HE Hw Hf. apply wpx_bind. unfold wpx at 1, input.
  destruct (stdin w) as [|line rest] eqn:Hin; [done|].
  eapply wpx_mono; [by apply Hf|done|].
  intros a w' (HP & Hw' & Hin'). split_and!; [done..|].
  rewrite Hin'. simpl. lia.
Qed.

(** A loop whose every turn reads a line. *)
Lemma wpx_loop_input {S A : Type} (E : exn → Prop) cards (I : S → Prop)
    (body : S → M (S + A)) (Q : A → Prop) (fuel : nat) (s : S) w :
  I s → valid_hand (items_at cards w) → (length (stdin w) < fuel)%nat →
  (∀ s w, I s → valid_hand (items_at cards w) →
     wpx E (body s) w (λ r w',
       match r with inl s' => I s' | inr a => Q a end
       ∧ valid_hand (items_at cards w')
       ∧ (length (stdin w') < length (stdin w))%nat)) →
  wpx E (loop fuel body s) w (λ a w',
    Q a ∧ valid_hand (items_at cards w')
    ∧ (length (stdin w') ≤ length (stdin w))%nat).
Proof.
  intros HI Hw Hfuel Hbody. revert s w HI Hw Hfuel.
  induction fuel as [|fuel IH]; intros s w HI Hw Hfuel; [lia|].
  simpl. apply wpx_bind. eapply wpx_mono; [by apply Hbody|done|].
  intros [s'|a] w' (H & Hw' & Hlt).
  - eapply wpx_mono; [apply IH; [done|done|lia]|done|].
    intros a w2 (? & ? & ?). split_and!; [done..|lia].
  - split_and!; [done..|lia].
Qed.

Ltac tame_print_step := eapply tame_bind; [apply tame_print|intros _ _].

Lemma well_formed_set_dealer_hand r card :
  well_formed r → rank card ∈ ranks →
  well_formed (set_dealer_hand (dealer_hand r ++ [card]) r).
Proof.
  intros (Hp & Hd & Hs) Hc. split_and!; [done| |done]. rsimpl.
  apply Forall_app. split; [done|]. by apply Forall_singleton.
Qed.

Lemma well_formed_set_player_hand r card :
  well_formed r → rank card ∈ ranks →
  well_formed (set_player_hand (player_hand r ++ [card]) r).
Proof.
  intros (Hp & Hd & Hs) Hc. split_and!; [|done|done]. rsimpl.
  apply Forall_app. split; [done|]. by apply Forall_singleton.
Qed.

Lemma well_formed_set_game_stats r stats :
  well_formed r → has_counters stats → well_formed (set_game_stats stats r).
Proof. by intros (Hp & Hd & Hs) Hc. Qed.

Ltac counter_key := repeat constructor.

(** One turn of the dealer's loop in a well-formed round. *)
Lemma tame_dealer_step cards r :
  well_formed r →
  tame cards (dealer_step entropy cards r) (λ res,
    match res with
    | inl r' =>
        well_formed r'
        ∧ (17 - length (dealer_hand r') < 17 - length (dealer_hand r))%nat
    | inr r' => well_formed r'
    end).
Proof.
  intros Hr. pose proof Hr as (Hp & Hd & Hs). unfold dealer_step.
  eapply tame_bind; [by apply tame_calculate_hand|]. intros total Htotal.
  case_bool_decide as Hlow; [|by apply tame_ret].
  tame_print_step.
  eapply tame_bind; [apply tame_deal_card|]. intros card Hcard. cbv zeta.
  pose proof (well_formed_set_dealer_hand r card Hr Hcard) as Hr'.
  pose proof Hr' as (_ & Hd' & _). revert Hr' Hd'. rsimpl. intros Hr' Hd'.
  eapply tame_bind; [by apply tame_calculate_hand|]. intros t Ht.
  tame_print_step.
  eapply tame_bind; [apply tame_display_hand; by destruct (dealer_hand r)|].
  intros _ _. tame_print_step.
  case_bool_decide as Hbust.
  - eapply tame_bind; [apply tame_incr_counter; [done|counter_key]|].
    intros stats1 Hs1.
    eapply tame_bind; [apply tame_incr_counter; [done|counter_key]|].
    intros stats2 Hs2. tame_print_step.
    apply tame_ret. by apply well_formed_set_game_stats.
  - apply tame_ret. split; [done|]. rsimpl.
    apply calculate_hand_length in Htotal. rewrite length_app. simpl. lia.
Qed.

(** The dealer's loop in a well-formed round ends with a value. *)
Lemma tame_dealer_draws fuel cards r :
  (18 ≤ fuel)%nat → well_formed r →
  tame cards (dealer_draws entropy fuel cards r) well_formed.
Proof.
  intros Hfuel Hr. unfold dealer_draws.
  apply (tame_loop cards well_formed (λ r, 17 - length (dealer_hand r))%nat);
    [done|lia|].
  intros r1 Hr1. by apply tame_dealer_step.
Qed.

Lemma tame_dealer_turn fuel cards r :
  (18 ≤ fuel)%nat → well_formed r → dealer_hand r ≠ [] →
  tame cards (dealer_turn entropy fuel cards r) well_formed.
Proof.
  intros Hfuel Hr Hne. pose proof Hr as (Hp & Hd & Hs). unfold dealer_turn.
  destruct (bust r); [by apply tame_ret|].
  eapply tame_bind; [by apply tame_calculate_hand|]. intros total Htotal.
  tame_print_step.
  eapply tame_bind; [by apply tame_display_hand|]. intros _ _.
  tame_print_step. by apply tame_dealer_draws.
Qed.

Lemma tame_compare_totals cards r :
  well_formed r → tame cards (compare_totals r) well_formed.
Proof.
  intros Hr. pose proof Hr as (Hp & Hd & Hs). unfold compare_totals.
  eapply tame_bind; [by apply tame_calculate_hand|]. intros pt Hpt.
  eapply tame_bind; [by apply tame_calculate_hand|]. intros dt Hdt. cbv zeta.
  case_bool_decide;
    [|destruct (_ && _); [|destruct (_ && _); [|by apply tame_ret]]].
  all: eapply tame_bind; [apply tame_incr_counter; [done|counter_key]|].
  all: intros stats1 Hs1; do 2 tame_print_step.
  all: apply tame_ret; by apply well_formed_set_game_stats.
Qed.

Lemma tame_deal_hands n cards r :
  well_formed r →
  tame cards (deal_hands entropy n cards r) (λ r',
    well_formed r' ∧ (dealer_hand r ≠ [] ∨ n ≠ 0%nat → dealer_hand r' ≠ [])
    ∧ (player_hand r ≠ [] ∨ n ≠ 0%nat → player_hand r' ≠ [])).
Proof.
  revert r. induction n as [|n IH]; intros r Hr; simpl.
  - apply tame_ret. split_and!; [done|intros [?|?]; done..].
  - eapply tame_bind; [apply tame_deal_card|]. intros c1 Hc1.
    eapply tame_bind; [apply tame_deal_card|]. intros c2 Hc2.
    eapply tame_mono; [apply IH|].
    + apply (well_formed_set_dealer_hand
               (set_player_hand (player_hand r ++ [c1]) r) c2); [|done].
      by apply well_formed_set_player_hand.
    + rsimpl. intros r' (Hr' & Hd & Hp).
      split_and!; [done|intros _; apply Hd|intros _; apply Hp];
        left; by destruct (dealer_hand r), (player_hand r).
Qed.

Lemma tame_first_hand cards player dealer :
  valid_hand player → player ≠ [] → dealer ≠ [] →
  tame cards (first_hand player dealer) (λ _, True).
Proof.
  intros Hv Hp Hd. unfold first_hand.
  eapply tame_bind; [by apply tame_calculate_hand|]. intros t Ht.
  tame_print_step.
  eapply tame_bind; [by apply tame_display_hand|]. intros _ _.
  do 2 tame_print_step.
  eapply tame_bind; [by apply tame_display_hand|]. intros _ _.
  apply tame_print.
Qed.

(** What follows the prompt in one turn of the player's loop. *)
Lemma tame_player_step_rest cards r action :
  well_formed r → dealer_hand r ≠ [] →
  tame cards
    (print "";;
     if bool_decide (upper action = "H") then
       card ← deal_card entropy cards;
       let r := set_player_hand (player_hand r ++ [card]) r in
       player_total ← or_KeyError (calculate_hand (player_hand r));
       print ("Player's hand (" +:+ pretty player_total +:+ "):");;
       display_hand (player_hand r) true;;
       print "";;
       if bool_decide (21 < player_total) then
         let r := set_bust true r in
         stats ← incr PLAYER_BUSTS (game_stats r);
         stats ← incr TOTAL_LOSSES stats;
         let r := set_game_stats stats r in
         dealer_total ← or_KeyError (calculate_hand (dealer_hand r));
         print ("Dealer's hand (" +:+ pretty dealer_total +:+ "):");;
         display_hand (dealer_hand r) true;;
         print "";;
         print ("RESULT: Bust! You lose." +:+ nl);;
         mret (inr r)
       else mret (inl r)
     else if bool_decide (upper action = "S") then mret (inr r)
     else print ("Invalid input!" +:+ nl);; mret (inl r))
    (λ res, match res with
            | inl r' | inr r' => well_formed r' ∧ dealer_hand r' ≠ []
            end).
Proof.
  intros Hr Hne. pose proof Hr as (Hp & Hd & Hs). tame_print_step.
  case_bool_decide as Hhit; [|case_bool_decide as Hstand].
  - eapply tame_bind; [apply tame_deal_card|]. intros card Hcard. cbv zeta.
    pose proof (well_formed_set_player_hand r card Hr Hcard) as Hr'.
    pose proof Hr' as (Hp' & _ & _). revert Hr' Hp'. rsimpl. intros Hr' Hp'.
    eapply tame_bind; [by apply tame_calculate_hand|]. intros t Ht.
    tame_print_step.
    eapply tame_bind; [apply tame_display_hand; by destruct (player_hand r)|].
    intros _ _. tame_print_step.
    case_bool_decide as Hbust; [|by apply tame_ret].
    eapply tame_bind; [apply tame_incr_counter; [done|counter_key]|].
    intros stats1 Hs1.
    eapply tame_bind; [apply tame_incr_counter; [done|counter_key]|].
    intros stats2 Hs2.
    eapply tame_bind; [by apply tame_calculate_hand|]. intros dt Hdt.
    tame_print_step.
    eapply tame_bind; [by apply tame_display_hand|]. intros _ _.
    do 2 tame_print_step.
    apply tame_ret. split; [|done].
    unfold well_formed. rsimpl. by split_and!.
  - by apply tame_ret.
  - tame_print_step. by apply tame_ret.
Qed.

(** In a well-formed round the player's turn ends, or the input does. *)
Lemma player_turn_safe fuel cards r w :
  (length (stdin w) < fuel)%nat →
  well_formed r → dealer_hand r ≠ [] → valid_hand (items_at cards w) →
  wpx (λ e, e = EOFError) (player_turn entropy upper fuel cards r) w (λ r' w',
    (well_formed r' ∧ dealer_hand r' ≠ [])
    ∧ valid_hand (items_at cards w')
    ∧ (length (stdin w') ≤ length (stdin w))%nat).
Proof.
  intros Hfuel Hr Hne Hw. unfold player_turn.
  apply (wpx_loop_input _ cards (λ r, well_formed r ∧ dealer_hand r ≠ []));
    [done..|].
  intros r1 w1 [Hr1 Hne1] Hw1. unfold player_step.
  eapply wpx_mono;
    [apply (input_then_tame (λ e, e = EOFError) cards); [done|done|]|done|].
  - intros action. by apply tame_player_step_rest.
  - intros [r'|r'] w' (? & ? & ?); done.
Qed.

(** A round that starts with the six counters and a deck of valid cards,
    with fuel for 18 turns and more fuel than lines of input, ends with its
    counters saved, unless the input ends first: no [KeyError] and no
    [IndexError] is raised, and no loop is cut off. *)
Lemma game_round_safe fuel cards stats w :
  (18 ≤ fuel)%nat → (length (stdin w) < fuel)%nat →
  has_counters stats → valid_hand (items_at cards w) →
  wpx (λ e, e = EOFError) (game_round entropy upper fuel cards stats) w
    (λ r w', well_formed r ∧ valid_hand (items_at cards w')
             ∧ (length (stdin w') ≤ length (stdin w))%nat).
Proof.
  intros Hfuel Hlines Hs Hw. unfold game_round.
  assert (∀ {A} (m : M A) (P : A → Prop) w (Q : A → world → Prop),
            tame cards m P → valid_hand (items_at cards w) →
            (∀ a w', P a → valid_hand (items_at cards w') → stdin w' = stdin w →
               Q a w') →
            wpx (λ e, e = EOFError) m w Q) as Hstep.
  { intros A m P w0 Q Hm Hw0 HQ. eapply wpx_mono; [by apply Hm|done|].
    intros a w' (? & ? & ?). by apply HQ. }
  apply wpx_bind.
  eapply Hstep; [apply tame_incr_counter; [done|counter_key]|done|].
  intros stats1 w1 Hs1 Hw1 Hin1. cbv zeta.
  apply wpx_bind. eapply Hstep; [apply tame_deal_hands|done|].
  { split_and!; [constructor|constructor|done]. }
  intros r1 w2 (Hr1 & Hd1 & Hp1) Hw2 Hin2.
  specialize (Hd1 (or_intror (ltac:(done) : 2%nat ≠ 0%nat))).
  specialize (Hp1 (or_intror (ltac:(done) : 2%nat ≠ 0%nat))).
  apply wpx_bind. eapply Hstep; [apply tame_first_hand; [apply Hr1|done..]|done|].
  intros [] w3 _ Hw3 Hin3.
  apply wpx_bind.
  eapply wpx_mono; [apply player_turn_safe; [|done..]|done|].
  { rewrite Hin3, Hin2, Hin1. done. }
  intros r2 w4 ((Hr2 & Hd2) & Hw4 & Hin4).
  apply wpx_bind. eapply Hstep; [by apply tame_dealer_turn|done|].
  intros r3 w5 Hr3 Hw5 Hin5.
  apply wpx_bind. eapply Hstep; [by apply tame_compare_totals|done|].
  intros r4 w6 Hr4 Hw6 Hin6.
  apply wpx_bind. eapply Hstep; [apply tame_save|done|].
  intros [] w7 _ Hw7 Hin7. split_and!; [done..|].
  rewrite Hin7, Hin6, Hin5. rewrite Hin3, Hin2, Hin1 in Hin4. done.
Qed.

(** ** The dealer's loop ends *)

(** A deal always returns a card. *)
Lemma deal_card_Done (deck : loc) w :
  ∃ card w', deal_card entropy deck w = Done card w'.
Proof.
  destruct (items_at deck w) as [|c x] eqn:Hx using rev_ind.
  - destruct (deal_card_rebuilds entropy deck w Hx) as (card & rest & _ & ->).
    eauto.
  - clear IHx. exists c. eexists. apply deal_card_pops.
    unfold items_at in Hx. destruct (heap w !! deck) as [y|]; simpl in Hx.
    + by rewrite Hx.
    + by destruct x.
Qed.

Lemma halts_deal_card (deck : loc) w : halts (deal_card entropy deck) w.
Proof. destruct (deal_card_Done deck w) as (card & w' & E). unfold halts. by rewrite E. Qed.

Lemma halts_display_hand hand show_all w : halts (display_hand hand show_all) w.
Proof.
  destruct hand as [|card hand]; [done|]. simpl.
  apply halts_bind; [apply halts_print|]. intros _ w' _.
  destruct show_all; [|apply halts_print].
  apply halts_for_each. intros. apply halts_print.
Qed.

Ltac halts_step :=
  first [ apply halts_ret | apply halts_raise | apply halts_or_KeyError
        | apply halts_print | apply halts_input | apply halts_incr
        | apply halts_deal_card | apply halts_display_hand
        | apply halts_bind; [|intros ? ? _] ].

Lemma halts_dealer_step cards r w : halts (dealer_step entropy cards r) w.
Proof.
  unfold dealer_step. repeat halts_step.
  case_bool_decide; repeat halts_step.
  cbv zeta. repeat halts_step.
  case_bool_decide; repeat halts_step.
Qed.

(** With fuel for 18 turns the dealer's loop is never cut off: a hand of
    [n] cards has a total of at least [n], so that a hand below 17 has fewer
    than 17 cards. *)
Lemma halts_dealer_draws fuel cards r w :
  (18 ≤ fuel)%nat → halts (dealer_draws entropy fuel cards r) w.
Proof.
  intros Hfuel. unfold dealer_draws.
  apply (halts_loop (λ r _, 17 - length (dealer_hand r))%nat).
  - apply halts_dealer_step.
  - intros r1 w1 r2 w2 E.
    pose proof (post_Done _ _ _ _ _ (dealer_step_spec cards r1 w1) E)
      as (total & Htotal & Hlt & _ & _ & _ & card & t & Hd & _).
    apply calculate_hand_length in Htotal.
    rewrite Hd, length_app. simpl. lia.
  - lia.
Qed.


(** ** The prompts: a token that is not accepted *)

Lemma after_rejections_nil rejection rest w :
  stdin w = rest → after_rejections rejection [] rest w = w.
Proof.
  intros <-. unfold after_rejections, set_console, set_stdin. simpl.
  rewrite app_nil_r. by destruct w.
Qed.

Lemma after_rejections_cons rejection token bad rest w :
  after_rejections rejection (token :: bad) rest w =
  after_rejections rejection bad rest
    (set_console (console w ++ rejection) (set_stdin (bad ++ rest) w)).
Proof.
  unfold after_rejections, set_console, set_stdin. simpl.
  by rewrite app_assoc.
Qed.

Lemma player_turn_rejects fuel cards r w token rest :
  stdin w = token :: rest →
  upper token ≠ "H" → upper token ≠ "S" →
  player_turn entropy upper (S fuel) cards r w =
  player_turn entropy upper fuel cards r
    (set_console (console w ++ hit_stand_rejection) (set_stdin rest w)).
Proof.
  intros Hin HH HS. unfold player_turn. simpl.
  unfold mbind at 1, M_bind at 1.
  unfold player_step, mbind, M_bind, input. rewrite Hin.
  rewrite !bool_decide_eq_false_2 by done.
  unfold print, mret, M_ret, set_console, set_stdin, hit_stand_rejection. simpl.
  by rewrite <-!app_assoc.
Qed.

Lemma play_again_rejects fuel w token rest :
  stdin w = token :: rest →
  upper token ≠ "P" → upper token ≠ "Q" →
  play_again upper (S fuel) w =
  play_again upper fuel
    (set_console (console w ++ play_again_rejection) (set_stdin rest w)).
Proof.
  intros Hin HP HQ. unfold play_again. simpl.
  unfold mbind at 1, M_bind at 1.
  unfold play_again_step, mbind, M_bind, input. rewrite Hin.
  rewrite !bool_decide_eq_false_2 by done.
  unfold print, mret, M_ret, set_console, set_stdin, play_again_rejection. simpl.
  by rewrite <-!app_assoc.
Qed.


(** ** A round ends *)

Lemma quiet_ret {A : Type} (a : A) : quiet (mret a).
Proof. by intros w. Qed.

Lemma quiet_raise {A : Type} (e : exn) : quiet (raise e : M A).
Proof. by intros w. Qed.

Lemma quiet_bind {A B : Type} (m : M A) (f : A → M B) :
  quiet m → (∀ a, quiet (f a)) → quiet (m ≫= f).
Proof.
  intros Hm Hf w. apply post_bind. eapply post_mono; [apply Hm|].
  intros a w' <-. apply Hf.
Qed.

Lemma quiet_or_KeyError {A : Type} (o : option A) : quiet (or_KeyError o).
Proof. by destruct o. Qed.

Lemma quiet_print text : quiet (print text).
Proof. by intros w. Qed.

Lemma quiet_incr key stats : quiet (incr key stats).
Proof.
  unfold incr. apply quiet_bind; [apply quiet_or_KeyError|].
  intros v. apply quiet_ret.
Qed.

Lemma quiet_for_each {A : Type} (l : list A) (body : A → M unit) :
  (∀ a, quiet (body a)) → quiet (for_each l body).
Proof.
  intros Hbody. induction l as [|a l IH]; [apply quiet_ret|].
  simpl. by apply quiet_bind.
Qed.

Lemma quiet_display_hand hand show_all : quiet (display_hand hand show_all).
Proof.
  destruct hand as [|card hand]; [apply quiet_raise|]. simpl.
  apply quiet_bind; [apply quiet_print|]. intros _.
  destruct show_all; [|apply quiet_print].
  apply quiet_for_each. intros. apply quiet_print.
Qed.

Lemma quiet_deal_card (deck : loc) : quiet (deal_card entropy deck).
Proof.
  intros w. unfold post.
  destruct (items_at deck w) as [|c x] eqn:Hx using rev_ind.
  - by destruct (deal_card_rebuilds entropy deck w Hx) as (card & rest & _ & ->).
  - clear IHx. rewrite (deal_card_pops entropy deck w x c); [done|].
    unfold items_at in Hx. destruct (heap w !! deck) as [y|]; simpl in Hx.
    + by rewrite Hx.
    + by destruct x.
Qed.

Ltac quiet_step :=
  first [ apply quiet_ret | apply quiet_raise | apply quiet_or_KeyError
        | apply quiet_print | apply quiet_incr
        | apply quiet_deal_card | apply quiet_display_hand
        | apply quiet_bind; [|intros ?] ].

Lemma quiet_deal_hands n cards r : quiet (deal_hands entropy n cards r).
Proof.
  revert r. induction n as [|n IH]; intros r; simpl; [apply quiet_ret|].
  repeat quiet_step. apply IH.
Qed.

Lemma quiet_first_hand player dealer : quiet (first_hand player dealer).
Proof. unfold first_hand. repeat quiet_step. Qed.

(** A line is read by [input], unless the input is at its end. *)
Lemma input_reads prompt w :
  post (input prompt) w (λ _ w', (length (stdin w') < length (stdin w))%nat).
Proof. unfold post, input. destruct (stdin w); simpl; [done|lia]. Qed.

Lemma input_then_quiet {A : Type} prompt (f : string → M A) w :
  (∀ line, quiet (f line)) →
  post (input prompt ≫= f) w (λ _ w', (length (stdin w') < length (stdin w))%nat).
Proof.
  intros Hf. apply post_bind.
  eapply post_mono; [apply input_reads|]. intros line w1 Hlt.
  eapply post_mono; [apply Hf|]. intros a w2 E. simpl in E. by rewrite E.
Qed.

Lemma player_step_reads cards r w :
  post (player_step entropy upper cards r) w (λ _ w',
    (length (stdin w') < length (stdin w))%nat).
Proof.
  unfold player_step. apply input_then_quiet. intros action.
  repeat quiet_step.
  repeat case_bool_decide; cbv zeta; repeat quiet_step.
  case_bool_decide; cbv zeta; repeat quiet_step.
Qed.

Lemma play_again_step_reads u w :
  post (play_again_step upper u) w (λ _ w',
    (length (stdin w') < length (stdin w))%nat).
Proof.
  unfold play_again_step. apply input_then_quiet. intros answer.
  repeat case_bool_decide; unfold quit; repeat quiet_step.
Qed.

Lemma halts_player_step cards r w : halts (player_step entropy upper cards r) w.
Proof.
  unfold player_step. repeat halts_step.
  repeat case_bool_decide; cbv zeta; repeat halts_step.
  case_bool_decide; cbv zeta; repeat halts_step.
Qed.

(** With more fuel than there are lines of input, the player's turn is
    never cut off. *)
Lemma halts_player_turn fuel cards r w :
  (length (stdin w) < fuel)%nat → halts (player_turn entropy upper fuel cards r) w.
Proof.
  intros Hfuel. unfold player_turn.
  apply (halts_loop (λ _ w, length (stdin w))); [|intros r1 w1 r2 w2 E|done].
  - apply halts_player_step.
  - exact (post_Done _ _ _ _ _ (player_step_reads cards r1 w1) E).
Qed.

Lemma halts_play_again fuel w :
  (length (stdin w) < fuel)%nat → halts (play_again upper fuel) w.
Proof.
  intros Hfuel. unfold play_again.
  apply (halts_loop (λ _ w, length (stdin w))); [|intros u1 w1 u2 w2 E|done].
  - intros u w1. unfold play_again_step. repeat halts_step.
    repeat case_bool_decide; unfold quit; repeat halts_step.
  - exact (post_Done _ _ _ _ _ (play_again_step_reads u1 w1) E).
Qed.

Lemma halts_dealer_turn fuel cards r w :
  (18 ≤ fuel)%nat → halts (dealer_turn entropy fuel cards r) w.
Proof.
  intros Hfuel. unfold dealer_turn. destruct (bust r); [done|].
  repeat halts_step. by apply halts_dealer_draws.
Qed.

Lemma halts_compare_totals r w : halts (compare_totals r) w.
Proof.
  unfold compare_totals. repeat halts_step. cbv zeta.
  case_bool_decide; repeat halts_step.
  destruct (_ && _); repeat halts_step.
  destruct (_ && _); repeat halts_step.
Qed.

Lemma halts_deal_hands n cards r w : halts (deal_hands entropy n cards r) w.
Proof.
  revert r w. induction n as [|n IH]; intros r w; simpl; [done|].
  repeat halts_step. apply IH.
Qed.

(** With fuel for 18 turns, and more fuel than there are lines of input, a
    round is never cut off: it ends, with its counters saved, or it raises
    an exception. *)
Lemma halts_game_round fuel cards stats w :
  (18 ≤ fuel)%nat → (length (stdin w) < fuel)%nat →
  halts (game_round entropy upper fuel cards stats) w.
Proof.
  intros Hfuel Hlines. unfold game_round.
  apply halts_bind; [apply halts_incr|]. intros stats1 w1 E1.
  assert (stdin w1 = stdin w) as Hin1.
  { exact (post_Done _ _ _ _ _ (quiet_incr _ _ w) E1). }
  cbv zeta.
  apply halts_bind; [apply halts_deal_hands|]. intros r1 w2 E2.
  assert (stdin w2 = stdin w1) as Hin2.
  { exact (post_Done _ _ _ _ _ (quiet_deal_hands _ _ _ w1) E2). }
  apply halts_bind.
  { unfold first_hand. repeat halts_step. }
  intros [] w3 E3.
  assert (stdin w3 = stdin w2) as Hin3.
  { exact (post_Done _ _ _ _ _ (quiet_first_hand _ _ w2) E3). }
  apply halts_bind; [apply halts_player_turn; congruence|]. intros r2 w4 _.
  apply halts_bind; [by apply halts_dealer_turn|]. intros r3 w5 _.
  apply halts_bind; [apply halts_compare_totals|]. intros r4 w6 _.
  done.
Qed.

End GameLemmas.

(** ** Examples *)

Lemma calculate_hand_spec_witness :
  valid_hand [mkCard "Hearts" "A"; mkCard "Spades" "9"; mkCard "Clubs" "A"]
  ∧ ∃ demoted : nat,
      calculate_hand [mkCard "Hearts" "A"; mkCard "Spades" "9"; mkCard "Clubs" "A"]
      = Some (spec_sum [mkCard "Hearts" "A"; mkCard "Spades" "9"; mkCard "Clubs" "A"]
              - 10 * Z.of_nat demoted)
      ∧ (demoted ≤ num_aces [mkCard "Hearts" "A"; mkCard "Spades" "9"; mkCard "Clubs" "A"])%nat
      ∧ (∀ j : nat, (j < demoted)%nat →
           21 < spec_sum [mkCard "Hearts" "A"; mkCard "Spades" "9"; mkCard "Clubs" "A"]
                - 10 * Z.of_nat j)
      ∧ (21 < spec_sum [mkCard "Hearts" "A"; mkCard "Spades" "9"; mkCard "Clubs" "A"]
              - 10 * Z.of_nat demoted →
         demoted = num_aces [mkCard "Hearts" "A"; mkCard "Spades" "9"; mkCard "Clubs" "A"]).
Proof.
  assert (valid_hand [mkCard "Hearts" "A"; mkCard "Spades" "9"; mkCard "Clubs" "A"])
    as Hvalid.
  { unfold valid_hand, ranks. repeat constructor. }
  split; [exact Hvalid|].
  exact (proj1 calculate_hand_spec _ Hvalid).
Defined.

Lemma calculate_hand_permutation_witness :
  rank <$> [mkCard "Hearts" "K"; mkCard "Spades" "A"; mkCard "Clubs" "5"]
    ≡ₚ rank <$> [mkCard "Diamonds" "5"; mkCard "Clubs" "K"; mkCard "Hearts" "A"]
  ∧ calculate_hand [mkCard "Hearts" "K"; mkCard "Spades" "A"; mkCard "Clubs" "5"]
    = calculate_hand [mkCard "Diamonds" "5"; mkCard "Clubs" "K"; mkCard "Hearts" "A"].
Proof.
  assert (rank <$> [mkCard "Hearts" "K"; mkCard "Spades" "A"; mkCard "Clubs" "5"]
            ≡ₚ rank <$> [mkCard "Diamonds" "5"; mkCard "Clubs" "K"; mkCard "Hearts" "A"])
    as Hperm.
  { simpl. symmetry. apply (Permutation_cons_append ["K"; "A"] "5"). }
  split; [exact Hperm|].
  exact (proj2 calculate_hand_permutation _ _ Hperm).
Defined.

Lemma deal_card_nonempty_witness :
  heap (example_world deck_stand []) !! 0%nat
    = Some ([mkCard "Clubs" "9"; mkCard "Diamonds" "5"; mkCard "Spades" "8";
             mkCard "Hearts" "6"] ++ [mkCard "Hearts" "7"])
  ∧ ∃ w' : world,
      deal_card example_entropy 0%nat (example_world deck_stand [])
        = Done (mkCard "Hearts" "7") w'
      ∧ heap w' !! 0%nat
        = Some [mkCard "Clubs" "9"; mkCard "Diamonds" "5"; mkCard "Spades" "8";
                mkCard "Hearts" "6"].
Proof.
  split; [reflexivity|].
  destruct (deal_card_nonempty example_entropy 0%nat (example_world deck_stand [])
              [mkCard "Clubs" "9"; mkCard "Diamonds" "5"; mkCard "Spades" "8";
               mkCard "Hearts" "6"] (mkCard "Hearts" "7") eq_refl)
    as (w' & Hdeal & Hdeck & _).
  exists w'. split; [exact Hdeal|exact Hdeck].
Defined.

Lemma deal_card_empty_deck_witness :
  heap (example_world [] []) !! 0%nat = Some []
  ∧ ∃ (card : Card) (w' : world),
      deal_card example_entropy 0%nat (example_world [] []) = Done card w'
      ∧ items_at 0%nat w' = []
      ∧ length (items_at 1%nat w') = 51%nat.
Proof.
  split; [reflexivity|].
  destruct (deal_card_empty_deck_stays_empty example_entropy 0%nat
              (example_world [] []) eq_refl)
    as (card & rest & w' & Hdeal & _ & _ & Hlen & Hheap & _ & Hempty).
  exists card, w'. split_and!; [exact Hdeal|exact Hempty|].
  unfold items_at. rewrite Hheap. simpl. exact Hlen.
Defined.

Lemma round_counts_one_outcome_witness :
  ∃ r w',
    game_round example_entropy ascii_upper 20 0%nat zero_stats
      (example_world deck_stand ["s"]) = Done r w'
    ∧ increased TOTAL_GAMES zero_stats (game_stats r)
    ∧ ((increased TOTAL_WINS zero_stats (game_stats r)
        ∧ unchanged TOTAL_LOSSES zero_stats (game_stats r)
        ∧ unchanged TOTAL_TIES zero_stats (game_stats r))
       ∨ (unchanged TOTAL_WINS zero_stats (game_stats r)
          ∧ increased TOTAL_LOSSES zero_stats (game_stats r)
          ∧ unchanged TOTAL_TIES zero_stats (game_stats r))
       ∨ (unchanged TOTAL_WINS zero_stats (game_stats r)
          ∧ unchanged TOTAL_LOSSES zero_stats (game_stats r)
          ∧ increased TOTAL_TIES zero_stats (game_stats r))).
Proof.
  destruct (game_round example_entropy ascii_upper 20 0%nat zero_stats
              (example_world deck_stand ["s"])) as [r w'| |] eqn:Hrun;
    [|by vm_compute in Hrun..].
  exists r, w'. split; [reflexivity|].
  exact (round_counts_one_outcome _ _ _ _ _ _ _ _ Hrun).
Defined.

Lemma player_bust_round_witness :
  ∃ r w',
    game_round example_entropy ascii_upper 20 0%nat zero_stats
      (example_world deck_bust ["x"; "h"]) = Done r w'
    ∧ bust r = true
    ∧ game_stats r !! PLAYER_BUSTS = Some 1
    ∧ increased PLAYER_BUSTS zero_stats (game_stats r)
    ∧ increased TOTAL_LOSSES zero_stats (game_stats r)
    ∧ unchanged TOTAL_WINS zero_stats (game_stats r)
    ∧ length (dealer_hand r) = 2%nat.
Proof.
  destruct (game_round example_entropy ascii_upper 20 0%nat zero_stats
              (example_world deck_bust ["x"; "h"])) as [r w'| |] eqn:Hrun;
    [|by vm_compute in Hrun..].
  assert (bust r = true) as Hbust.
  { vm_compute in Hrun. by injection Hrun as <- _. }
  assert (game_stats r !! PLAYER_BUSTS = Some 1) as Hone.
  { vm_compute in Hrun. by injection Hrun as <- _. }
  destruct (player_bust_round _ _ _ _ _ _ _ _ Hrun) as [_ Hround].
  destruct (Hround Hbust) as (_ & Hpb & Htl & Htw & _ & _ & Hdh & _).
  exists r, w'. by split_and!.
Defined.



(** The three rounds that the spec plays through, and a round played on an
    exhausted deck. *)

(** The player stands on 7 and 8; the dealer holds 6 and 5, draws a 9 and
    wins with 20. *)
Example scenario_dealer_wins :
  ∃ r w',
    game_round example_entropy ascii_upper 20 0%nat zero_stats
      (example_world deck_stand ["s"]) = Done r w'
    ∧ player_hand r = [mkCard "Hearts" "7"; mkCard "Spades" "8"]
    ∧ dealer_hand r
      = [mkCard "Hearts" "6"; mkCard "Diamonds" "5"; mkCard "Clubs" "9"]
    ∧ read_counters (game_stats r) = [Some 1; Some 0; Some 1; Some 0; Some 0; Some 0]
    ∧ read_counters <$> stats_file w'
      = Some [Some 1; Some 0; Some 1; Some 0; Some 0; Some 0].
Proof.
  eexists _, _. split; [vm_compute; reflexivity|].
  split_and!; vm_compute; reflexivity.
Qed.

(** The player hits on 10 and 9 and busts with a 5; the dealer does not
    play. *)
Example scenario_player_busts :
  ∃ r w',
    game_round example_entropy ascii_upper 20 0%nat zero_stats
      (example_world deck_bust ["h"]) = Done r w'
    ∧ bust r = true
    ∧ calculate_hand (player_hand r) = Some 24
    ∧ dealer_hand r = [mkCard "Hearts" "6"; mkCard "Diamonds" "5"]
    ∧ read_counters (game_stats r) = [Some 1; Some 0; Some 1; Some 0; Some 1; Some 0].
Proof.
  eexists _, _. split; [vm_compute; reflexivity|].
  split_and!; vm_compute; reflexivity.
Qed.

(** The player stands on 20; the dealer stands on 19, and the player wins. *)
Example scenario_player_wins :
  ∃ r w',
    game_round example_entropy ascii_upper 20 0%nat zero_stats
      (example_world
         [mkCard "Diamonds" "9"; mkCard "Spades" "10"; mkCard "Clubs" "10";
          mkCard "Hearts" "10"] ["S"]) = Done r w'
    ∧ calculate_hand (player_hand r) = Some 20
    ∧ calculate_hand (dealer_hand r) = Some 19
    ∧ read_counters (game_stats r) = [Some 1; Some 1; Some 0; Some 0; Some 0; Some 0].
Proof.
  eexists _, _. split; [vm_compute; reflexivity|].
  split_and!; vm_compute; reflexivity.
Qed.

(** A round on an empty deck, with a random generator that always yields 0:
    every deal builds a deck of its own and takes the same card from it, so
    that the player holds the two of hearts twice and the dealer nine times,
    and the deck of the game is still empty after the round. *)
Example round_on_an_empty_deck :
  ∃ r w',
    game_round (λ _, 0%nat) ascii_upper 20 0%nat zero_stats
      (example_world [] ["s"]) = Done r w'
    ∧ player_hand r = replicate 2 (mkCard "Hearts" "2")
    ∧ dealer_hand r = replicate 9 (mkCard "Hearts" "2")
    ∧ items_at 0%nat w' = []
    ∧ length (heap w') = 12%nat.
Proof.
  eexists _, _. split; [vm_compute; reflexivity|].
  split_and!; vm_compute; reflexivity.
Qed.

(** The whole program on the input of a stand and a quit, with no files:
    one round is played and saved, and [quit()] ends the program. *)
Example main_one_round :
  ∃ w',
    main example_entropy ascii_upper 20
      (World [] 0 ["s"; "q"] [] None None) = Raised SystemExit w'
    ∧ stdin w' = []
    ∧ read_counters <$> stats_file w'
      = Some [Some 1; Some 0; Some 1; Some 0; Some 0; Some 0]
    ∧ length (items_at 0%nat w') = 48%nat.
Proof.
  eexists. split; [vm_compute; reflexivity|].
  split_and!; vm_compute; reflexivity.
Qed.

(** * More of the program *)

(** ** Hand evaluation: errors and the best total *)

(** X1: [calculate_hand] raises [KeyError] exactly when the hand holds a
    card whose rank is not one of the thirteen keys of [values]; on every
    other hand, the empty one included, it returns a total. *)
Theorem calculate_hand_KeyError (hand : list Card) :
  calculate_hand hand = None ↔ ∃ card, card ∈ hand ∧ rank card ∉ ranks.
Proof.
  split.
  - intros Hnone. apply Exists_exists.
    apply (not_Forall_Exists (λ card, rank card ∈ ranks)).
    intros Hv. apply calculate_hand_Some in Hv as [t Ht]. congruence.
  - intros (card & Hin & Hrank).
    destruct (calculate_hand hand) as [t|] eqn:Ht; [|done].
    apply calculate_hand_valid in Ht. unfold valid_hand in Ht.
    rewrite Forall_forall in Ht. destruct Hrank. by apply Ht.
Qed.

(** X2: the total of a hand is the best one.  Among the sums that count
    some of the Aces as 1 and the others as 11, it is the greatest that does
    not exceed 21, when there is one; the hand is over 21 only when every
    such sum is, and its total is then the sum with every Ace as 1. *)
Theorem calculate_hand_best (hand : list Card) :
  valid_hand hand →
  ∃ t, calculate_hand hand = Some t
       ∧ (∃ k : nat, (k ≤ num_aces hand)%nat ∧ t = spec_sum hand - 10 * Z.of_nat k)
       ∧ (∀ k : nat, (k ≤ num_aces hand)%nat →
            spec_sum hand - 10 * Z.of_nat k ≤ 21 →
            spec_sum hand - 10 * Z.of_nat k ≤ t ≤ 21)
       ∧ (21 < t →
            t = hard_total hand
            ∧ ∀ k : nat, (k ≤ num_aces hand)%nat →
                21 < spec_sum hand - 10 * Z.of_nat k).
Proof.
  intros Hv. unfold calculate_hand. rewrite (sum_values_valid _ _ Hv).
  destruct (demote_aces_spec (num_aces hand) (0 + spec_sum hand))
    as (d & Hd & Heq & Hwhile & Hstop).
  eexists. split; [reflexivity|]. rewrite Heq. split_and!.
  - exists d. split; [done|lia].
  - intros k Hk Hle.
    destruct (decide (k < d)%nat) as [Hlt|Hge].
    + specialize (Hwhile k Hlt). lia.
    + destruct (decide (21 < 0 + spec_sum hand - 10 * Z.of_nat d)) as [Hgt|?]; [|lia].
      specialize (Hstop Hgt). lia.
  - intros Hgt. specialize (Hstop Hgt). subst d. unfold hard_total.
    split; [lia|]. intros k Hk. lia.
Qed.

(** X3: two cards of the deck never go over 21: the total of a hand of two
    is between 4 and 21, so that no hand is a bust as it is dealt. *)
Theorem two_cards_never_bust (card1 card2 : Card) :
  valid_hand [card1; card2] →
  ∃ t, calculate_hand [card1; card2] = Some t ∧ 4 ≤ t ≤ 21.
Proof.
  intros Hv. destruct (calculate_hand_Some _ Hv) as [t Ht].
  exists t. split; [done|].
  split; [|by apply (calculate_hand_two [card1; card2])].
  unfold calculate_hand in Ht. rewrite (sum_values_valid _ _ Hv) in Ht.
  destruct (demote_aces_spec (num_aces [card1; card2]) (0 + spec_sum [card1; card2]))
    as (k & _ & Heq & Hwhile & _).
  rewrite Heq in Ht. injection Ht as <-.
  apply Forall_cons in Hv as [H1 [H2 _]%Forall_cons].
  change (spec_sum [card1; card2])
    with (spec_value (rank card1) + (spec_value (rank card2) + 0)) in *.
  destruct k as [|k].
  - destruct (spec_value_bounds _ H1) as [[? ?]|[? ?]],
             (spec_value_bounds _ H2) as [[? ?]|[? ?]]; lia.
  - assert (k < S k)%nat as Hk by lia. specialize (Hwhile k Hk). lia.
Qed.

(** ** Showing hands and counters *)

Lemma for_each_print_cards (cards : list Card) (w : world) :
  for_each cards (λ card, print (show_card card)) w
  = Done () (set_console (console w ++ (Printed ∘ show_card <$> cards)) w).
Proof.
  revert w. induction cards as [|card cards IH]; intros w.
  - simpl. unfold mret, M_ret, set_console. rewrite app_nil_r. by destruct w.
  - simpl. unfold mbind, M_bind, print. rewrite IH.
    unfold set_console. simpl. by rewrite <-app_assoc.
Qed.

Lemma display_hand_all (hand : list Card) (w : world) :
  hand ≠ [] →
  display_hand hand true w
  = Done () (set_console (console w ++ (Printed ∘ show_card <$> hand)) w).
Proof.
  destruct hand as [|first rest]; [done|]. intros _. simpl.
  unfold mbind, M_bind, print. rewrite for_each_print_cards.
  unfold set_console. simpl. by rewrite <-app_assoc.
Qed.

(** X4: [display_hand] writes one line for every card of the hand, in the
    order of the hand, when all cards are shown; when they are not, it
    writes the first card and one line ["[X]"], whatever else the hand
    holds and however many cards it has; on an empty hand it raises
    [IndexError] and writes nothing.  It changes nothing but the terminal. *)
Theorem display_hand_lines :
  (∀ show_all w, display_hand [] show_all w = Raised IndexError w)
  ∧ (∀ first rest w,
       display_hand (first :: rest) true w
       = Done () (set_console
                    (console w ++ (Printed ∘ show_card <$> first :: rest)) w))
  ∧ (∀ first rest w,
       display_hand (first :: rest) false w
       = Done () (set_console
                    (console w ++ [Printed (show_card first); Printed "[X]"]) w)).
Proof.
  split_and!.
  - done.
  - intros first rest w. by apply display_hand_all.
  - intros first rest w. simpl. unfold mbind, M_bind, print, set_console. simpl.
    by rewrite <-app_assoc.
Qed.

(** X5: what [first_hand] writes does not depend on the cards of the dealer
    after the first: two dealer hands with the same first card give the same
    output and the same result, for every hand of the player.  When it
    returns, it has written the total and the cards of the player, the line
    ["Dealer's hand (X):"] in place of the dealer's total, the dealer's
    first card and ["[X]"], and it has changed nothing but the terminal. *)
Theorem first_hand_hides_dealer (player : list Card) (first : Card)
    (rest rest' : list Card) (w : world) :
  first_hand player (first :: rest) w = first_hand player (first :: rest') w
  ∧ ∀ w', first_hand player (first :: rest) w = Done () w' →
      ∃ t, calculate_hand player = Some t
           ∧ w' = set_console
                    (console w
                     ++ [Printed ("Player's hand (" +:+ pretty t +:+ "):")]
                     ++ (Printed ∘ show_card <$> player)
                     ++ [Printed ""; Printed "Dealer's hand (X):";
                         Printed (show_card first); Printed "[X]"; Printed ""]) w.
Proof.
  split; [reflexivity|].
  intros w'. unfold first_hand, mbind at 1, M_bind at 1.
  destruct (calculate_hand player) as [t|] eqn:Ht; [|done].
  simpl. unfold mbind, M_bind, print.
  destruct player as [|card player]; [done|].
  rewrite display_hand_all by done. simpl. intros [= <-].
  exists t. split; [done|].
  unfold set_console. simpl. f_equal.
  by repeat (rewrite <-(assoc_L (++)); simpl).
Qed.

(** X6: the 52 cards of the deck are shown as 52 different strings: no two
    cards can be confused on the terminal. *)
Theorem show_card_distinct : NoDup (show_card <$> new_deck).
Proof. apply (bool_decide_unpack _). vm_compute. reflexivity. Qed.

Ltac close_lines :=
  unfold set_console; cbn;
  repeat (rewrite <-(assoc_L (++)); cbn); reflexivity.

(** [display_game_stats] on a dictionary with the six counters, and on one
    that lacks a counter. *)
Lemma display_game_stats_cases (stats : gmap string Z) (w : world) :
  ∃ lines,
    (has_counters stats ∧ length lines = 8%nat
     ∧ display_game_stats stats w
       = Done () (set_console (console w ++ (Printed <$> lines)) w))
    ∨ (¬ has_counters stats
       ∧ display_game_stats stats w
         = Raised KeyError (set_console (console w ++ (Printed <$> lines)) w)).
Proof.
  assert (has_counters stats ↔
          is_Some (stats !! TOTAL_GAMES) ∧ is_Some (stats !! TOTAL_WINS)
          ∧ is_Some (stats !! TOTAL_LOSSES) ∧ is_Some (stats !! TOTAL_TIES)
          ∧ is_Some (stats !! PLAYER_BUSTS) ∧ is_Some (stats !! DEALER_BUSTS)
          ∧ True) as Hc.
  { unfold has_counters. by rewrite !Forall_cons, Forall_nil. }
  unfold display_game_stats, mbind, M_bind, print.
  cbn [console set_console].
  destruct (stats !! TOTAL_GAMES) as [v1|] eqn:H1; cbn [or_KeyError mret M_ret raise];
    [|eexists [_]; right; split; [rewrite Hc; intros ([??] & _); done|close_lines]].
  cbn [console set_console].
  destruct (stats !! TOTAL_WINS) as [v2|] eqn:H2; cbn [or_KeyError mret M_ret raise];
    [|eexists [_; _]; right; split; [rewrite Hc; intros (_ & [??] & _); done|close_lines]].
  cbn [console set_console].
  destruct (stats !! TOTAL_LOSSES) as [v3|] eqn:H3; cbn [or_KeyError mret M_ret raise];
    [|eexists [_; _; _]; right; split; [rewrite Hc; intros (_ & _ & [??] & _); done|close_lines]].
  cbn [console set_console].
  destruct (stats !! TOTAL_TIES) as [v4|] eqn:H4; cbn [or_KeyError mret M_ret raise];
    [|eexists [_; _; _; _]; right; split;
      [rewrite Hc; intros (_ & _ & _ & [??] & _); done|close_lines]].
  cbn [console set_console].
  destruct (stats !! PLAYER_BUSTS) as [v5|] eqn:H5; cbn [or_KeyError mret M_ret raise];
    [|eexists [_; _; _; _; _]; right; split;
      [rewrite Hc; intros (_ & _ & _ & _ & [??] & _); done|close_lines]].
  cbn [console set_console].
  destruct (stats !! DEALER_BUSTS) as [v6|] eqn:H6; cbn [or_KeyError mret M_ret raise];
    [|eexists [_; _; _; _; _; _]; right; split;
      [rewrite Hc; intros (_ & _ & _ & _ & _ & [??] & _); done|close_lines]].
  eexists [_; _; _; _; _; _; _; _]. left. split_and!; [rewrite Hc; split_and!; eauto|done|close_lines].
Qed.

(** X7: [display_game_stats] returns exactly when the dictionary has the six
    counters as keys, and it has then written eight lines and changed
    nothing else; when a counter is missing (a file [game_stats.json] that
    lacks it is loaded as it is), it raises [KeyError], having touched
    nothing but the terminal. *)
Theorem display_game_stats_KeyError (stats : gmap string Z) (w : world) :
  (has_counters stats →
   ∃ lines, length lines = 8%nat
            ∧ display_game_stats stats w
              = Done () (set_console (console w ++ (Printed <$> lines)) w))
  ∧ (¬ has_counters stats →
     ∃ lines, display_game_stats stats w
              = Raised KeyError (set_console (console w ++ (Printed <$> lines)) w)).
Proof.
  destruct (display_game_stats_cases stats w) as (lines & [(Hs & Hlen & Hrun)|(Hn & Hrun)]).
  - split; [by exists lines|done].
  - split; [done|by exists lines].
Qed.

(** ** Shuffling *)

Lemma shuffle_from_length {A : Type} entropy (i n : nat) (x : list A) :
  length (shuffle_from entropy i n x) = length x.
Proof.
  revert n x. induction i as [|i IH]; intros n x; simpl; [done|].
  rewrite IH. apply Permutation_length, swap_Permutation.
Qed.

(** X8: [shuffle_deck] keeps the number of cards of the deck, touches no
    other list and nothing else of the program's state but the random
    generator; and a deck of fewer than two cards is left exactly as it is,
    without a number drawn from the generator. *)
Theorem shuffle_deck_frame (entropy : nat → nat) (deck : loc) (w : world) :
  ∃ w' : world,
    shuffle_deck entropy deck w = Done () w'
    ∧ length (items_at deck w') = length (items_at deck w)
    ∧ length (heap w') = length (heap w)
    ∧ (∀ l : loc, l ≠ deck → heap w' !! l = heap w !! l)
    ∧ stdin w' = stdin w ∧ console w' = console w
    ∧ welcome_file w' = welcome_file w ∧ stats_file w' = stats_file w
    ∧ ((length (items_at deck w) < 2)%nat → w' = w).
Proof.
  eexists. split; [reflexivity|].
  unfold items_at. cbn [heap set_heap set_draws stdin console welcome_file stats_file].
  split_and!; try done.
  - destruct (heap w !! deck) as [x|] eqn:Hx.
    + rewrite list_lookup_insert_eq by (by eapply lookup_lt_Some).
      apply shuffle_from_length.
    + rewrite list_insert_ge by (by apply lookup_ge_None). by rewrite Hx.
  - by rewrite length_insert.
  - intros l Hl. by rewrite list_lookup_insert_ne.
  - intros Hlen. unfold shuffle.
    replace (length (default [] (heap w !! deck)) - 1)%nat with 0%nat by lia.
    simpl. rewrite Nat.add_0_r.
    destruct (heap w !! deck) as [x|] eqn:Hx; simpl.
    + rewrite list_insert_id by done. by destruct w.
    + rewrite list_insert_ge by (by apply lookup_ge_None). by destruct w.
Qed.

Section MoreOfTheGame.

Variable entropy : nat → nat.
Variable upper : string → string.

(** ** The prompts: the accepted tokens *)

Lemma play_again_skips (bad rest : list string) fuel w :
  Forall (λ token, upper token ≠ "P" ∧ upper token ≠ "Q") bad →
  stdin w = bad ++ rest →
  play_again upper (length bad + fuel) w
  = play_again upper fuel (after_rejections play_again_rejection bad rest w).
Proof.
  intros Hbad. revert w. induction Hbad as [|token bad [HP HQ] _ IH]; intros w Hin.
  - by rewrite after_rejections_nil.
  - rewrite after_rejections_cons. simpl in Hin. simpl length. simpl Nat.add.
    rewrite (play_again_rejects upper _ _ _ _ Hin HP HQ). by apply IH.
Qed.

Lemma player_turn_skips (bad rest : list string) fuel cards r w :
  Forall (λ token, upper token ≠ "H" ∧ upper token ≠ "S") bad →
  stdin w = bad ++ rest →
  player_turn entropy upper (length bad + fuel) cards r w
  = player_turn entropy upper fuel cards r
      (after_rejections hit_stand_rejection bad rest w).
Proof.
  intros Hbad. revert w. induction Hbad as [|token bad [HH HS] _ IH]; intros w Hin.
  - by rewrite after_rejections_nil.
  - rewrite after_rejections_cons. simpl in Hin. simpl length. simpl Nat.add.
    rewrite (player_turn_rejects entropy upper _ _ _ _ _ _ Hin HH HS). by apply IH.
Qed.

(** X9: [play_again] reads tokens up to the first whose upper case is [P] or
    [Q], rejecting the others.  On [P] it writes an empty line and returns;
    on [Q] it raises [SystemExit]; and when the input ends before such a
    token it raises [EOFError].  In each case the input that follows the
    token is left unread, and nothing but the terminal is changed. *)
Theorem play_again_answers (bad rest : list string) (token : string) fuel w :
  Forall (λ token, upper token ≠ "P" ∧ upper token ≠ "Q") bad →
  (stdin w = bad ++ token :: rest → upper token = "P" →
   play_again upper (length bad + S fuel) w
   = Done ()
       (set_console
          (console w ++ (bad ≫= λ _, play_again_rejection)
           ++ [Prompted "Enter [P] to play again or [Q] to quit: "; Printed ""])
          (set_stdin rest w)))
  ∧ (stdin w = bad ++ token :: rest → upper token = "Q" →
     play_again upper (length bad + S fuel) w
     = Raised SystemExit
         (set_console
            (console w ++ (bad ≫= λ _, play_again_rejection)
             ++ [Prompted "Enter [P] to play again or [Q] to quit: "])
            (set_stdin rest w)))
  ∧ (stdin w = bad →
     play_again upper (length bad + S fuel) w
     = Raised EOFError
         (set_console
            (console w ++ (bad ≫= λ _, play_again_rejection)
             ++ [Prompted "Enter [P] to play again or [Q] to quit: "])
            (set_stdin [] w))).
Proof.
  intros Hbad. split_and!.
  - intros Hin HP. rewrite (play_again_skips bad (token :: rest) _ _ Hbad Hin).
    unfold play_again. simpl. unfold mbind at 1, M_bind at 1.
    unfold play_again_step, mbind, M_bind, input, after_rejections. simpl.
    rewrite bool_decide_eq_true_2 by done.
    unfold print, mret, M_ret, set_console, set_stdin. simpl.
    by repeat (rewrite <-(assoc_L (++)); simpl).
  - intros Hin HQ. rewrite (play_again_skips bad (token :: rest) _ _ Hbad Hin).
    unfold play_again. simpl. unfold mbind at 1, M_bind at 1.
    unfold play_again_step, mbind, M_bind, input, after_rejections. simpl.
    rewrite bool_decide_eq_false_2 by (rewrite HQ; done).
    rewrite bool_decide_eq_true_2 by done.
    unfold quit, raise, set_console, set_stdin. simpl.
    by repeat (rewrite <-(assoc_L (++)); simpl).
  - intros Hin. rewrite (play_again_skips bad [] _ _ Hbad) by (by rewrite app_nil_r).
    unfold play_again. simpl. unfold mbind at 1, M_bind at 1.
    unfold play_again_step, mbind, M_bind, input, after_rejections. simpl.
    unfold set_console, set_stdin. simpl.
    by repeat (rewrite <-(assoc_L (++)); simpl).
Qed.

(** X10: a stand ends the player's turn and changes nothing: after tokens
    that are rejected, a token whose upper case is [S] makes the turn return
    the round as it was, with the hands, the counters and the flag [bust]
    untouched; no card is dealt, and nothing but the terminal and the input
    read so far is changed. *)
Theorem stand_changes_nothing (bad rest : list string) (token : string)
    fuel cards r w :
  Forall (λ token, upper token ≠ "H" ∧ upper token ≠ "S") bad →
  stdin w = bad ++ token :: rest →
  upper token = "S" →
  player_turn entropy upper (length bad + S fuel) cards r w
  = Done r
      (set_console
         (console w ++ (bad ≫= λ _, hit_stand_rejection)
          ++ [Prompted "Enter [H] to hit or [S] to stand: "; Printed ""])
         (set_stdin rest w)).
Proof.
  intros Hbad Hin HS.
  rewrite (player_turn_skips bad (token :: rest) _ _ _ _ Hbad Hin).
  unfold player_turn. simpl. unfold mbind at 1, M_bind at 1.
  unfold player_step, mbind, M_bind, input, after_rejections. simpl.
  rewrite bool_decide_eq_false_2 by (by rewrite HS).
  rewrite bool_decide_eq_true_2 by done.
  unfold print, mret, M_ret, set_console, set_stdin. simpl.
  by repeat (rewrite <-(assoc_L (++)); simpl).
Qed.


(** ** A round: how it ends, and what it keeps *)


(** X12: every completed round leaves its counters in the file: after the
    round, [game_stats.json] holds exactly the counters the round ended
    with, and [load_game_stats] returns them, so that the next run of the
    program starts from them. *)
Theorem round_saves_counters fuel cards stats w r w' :
  game_round entropy upper fuel cards stats w = Done r w' →
  stats_file w' = Some (game_stats r)
  ∧ load_game_stats w' = Done (game_stats r) w'.
Proof.
  intros Hrun.
  assert (post (game_round entropy upper fuel cards stats) w
            (λ r w', stats_file w' = Some (game_stats r))) as Hpost.
  { unfold game_round. skip_step. cbv zeta. do 5 skip_step.
    by apply post_bind, post_save, post_ret. }
  pose proof (post_Done _ _ _ _ _ Hpost Hrun) as Hfile. simpl in Hfile.
  split; [done|]. unfold load_game_stats. by rewrite Hfile.
Qed.


Ltac bumps :=
  repeat match goal with
  | H : bump _ _ _ |- _ => destruct H as (? & ? & ->)
  end;
  unfold TOTAL_GAMES, TOTAL_WINS, TOTAL_LOSSES, TOTAL_TIES, PLAYER_BUSTS,
    DEALER_BUSTS in *;
  simplify_map_eq.

(** X13: the counters stay consistent: if, before a round, the games are
    the wins, losses and ties together, the busts of the player are no more
    than the losses, the busts of the dealer no more than the wins, and no
    counter is negative, then the same holds after every completed round. *)
Theorem round_keeps_counters_consistent fuel cards stats w r w' :
  game_round entropy upper fuel cards stats w = Done r w' →
  consistent stats → consistent (game_stats r).
Proof.
  intros Hrun (g & wi & l & t & pb & db & Hg & Hwi & Hl & Ht & Hpb & Hdb & Hbounds).
  destruct (post_Done _ _ _ _ _ (game_round_outcome entropy upper fuel cards stats w) Hrun)
    as (stats1 & pt & dt & Hgames & _ & _ & Hend).
  unfold consistent.
  destruct Hend as
    [(_ & _ & _ & (stats2 & H1 & H2) & _)
    |[(_ & _ & _ & stats2 & H1 & H2)
     |(_ & _ & _ & [[_ H1]|[[_ H1]|[_ H1]]])]];
    bumps; eexists _, _, _, _, _, _;
    (split_and!;
       [by rewrite ?lookup_insert_eq, ?lookup_insert_ne by done..
       | | | | | |]; lia).
Qed.

Ltac counter_iff :=
  split;
  [ intros (? & ? & ?); simplify_map_eq; lia
  | intros ?; first [lia | eexists; split; simplify_map_eq; done] ].

(** X14: the result of a round follows the totals.  In a completed round
    with the totals [pt] of the player and [dt] of the dealer, the wins go
    up exactly when the player is not over 21 and the dealer is over 21 or
    below the player; the losses exactly when the player is over 21, or the
    dealer is not and is above the player; the ties exactly when the totals
    are equal and not over 21; the busts of the player exactly when the
    player is over 21, and the busts of the dealer exactly when the player
    is not and the dealer is.  When the player is not over 21 the dealer has
    played to 17 or more, and when the player is over 21 the dealer has not
    drawn. *)
Theorem round_result_follows_totals fuel cards stats w r w' :
  game_round entropy upper fuel cards stats w = Done r w' →
  ∃ pt dt,
    calculate_hand (player_hand r) = Some pt
    ∧ calculate_hand (dealer_hand r) = Some dt
    ∧ (increased TOTAL_WINS stats (game_stats r) ↔ pt ≤ 21 ∧ (21 < dt ∨ dt < pt))
    ∧ (increased TOTAL_LOSSES stats (game_stats r) ↔ 21 < pt ∨ (dt ≤ 21 ∧ pt < dt))
    ∧ (increased TOTAL_TIES stats (game_stats r) ↔ pt = dt ∧ pt ≤ 21)
    ∧ (increased PLAYER_BUSTS stats (game_stats r) ↔ 21 < pt)
    ∧ (increased DEALER_BUSTS stats (game_stats r) ↔ pt ≤ 21 ∧ 21 < dt)
    ∧ (pt ≤ 21 → 17 ≤ dt)
    ∧ (21 < pt → length (dealer_hand r) = 2%nat ∧ dt ≤ 21).
Proof.
  intros Hrun.
  destruct (post_Done _ _ _ _ _ (game_round_outcome entropy upper fuel cards stats w) Hrun)
    as (stats1 & pt & dt & Hgames & Hpt & Hdt & Hend).
  exists pt, dt. split; [done|]. split; [done|].
  assert (length (dealer_hand r) = 2%nat → dt ≤ 21) as Htwo.
  { intros Hlen. by eapply calculate_hand_two. }
  unfold increased.
  destruct Hend as
    [(_ & Hp & Hlen & (stats2 & H1 & H2) & _)
    |[(_ & Hp & Hd & stats2 & H1 & H2)
     |(_ & Hp & Hd & [[Hc H1]|[[Hc H1]|[Hc H1]]])]];
    [specialize (Htwo Hlen)|clear Htwo..];
    bumps; (split_and!; [counter_iff..|lia|lia]).
Qed.

End MoreOfTheGame.

(** ** The deck: no card is made or lost while it lasts *)

Lemma still_ret {A : Type} (a : A) : still (mret a).
Proof. by intros w. Qed.

Lemma still_raise {A : Type} (e : exn) : still (raise e : M A).
Proof. by intros w. Qed.

Lemma still_bind {A B : Type} (m : M A) (f : A → M B) :
  still m → (∀ a, still (f a)) → still (m ≫= f).
Proof.
  intros Hm Hf w. apply post_bind. eapply post_mono; [apply Hm|].
  intros a w' <-. apply Hf.
Qed.

Lemma still_or_KeyError {A : Type} (o : option A) : still (or_KeyError o).
Proof. by destruct o. Qed.

Lemma still_print text : still (print text).
Proof. by intros w. Qed.

Lemma still_input prompt : still (input prompt).
Proof. intros w. unfold post, input. by destruct (stdin w). Qed.

Lemma still_incr key stats : still (incr key stats).
Proof.
  unfold incr. apply still_bind; [apply still_or_KeyError|].
  intros v. apply still_ret.
Qed.

Lemma still_save stats : still (save_game_stats stats).
Proof. by intros w. Qed.

Lemma still_for_each {A : Type} (l : list A) (body : A → M unit) :
  (∀ a, still (body a)) → still (for_each l body).
Proof.
  intros Hbody. induction l as [|a l IH]; [apply still_ret|].
  simpl. by apply still_bind.
Qed.

Lemma still_display_hand hand show_all : still (display_hand hand show_all).
Proof.
  destruct hand as [|card hand]; [apply still_raise|]. simpl.
  apply still_bind; [apply still_print|]. intros _.
  destruct show_all; [|apply still_print].
  apply still_for_each. intros. apply still_print.
Qed.

Lemma still_first_hand player dealer : still (first_hand player dealer).
Proof.
  unfold first_hand.
  repeat first [ apply still_print | apply still_or_KeyError
               | apply still_display_hand | apply still_bind; [|intros ?] ].
Qed.

Lemma post_still {A : Type} (m : M A) w (Q : A → world → Prop) :
  still m → (∀ a w', heap w' = heap w → Q a w') → post m w Q.
Proof. intros Hm HQ. eapply post_mono; [apply Hm|]. intros a w' Hh. by apply HQ. Qed.

Ltac still_solve :=
  repeat first [ apply still_ret | apply still_raise | apply still_print
               | apply still_input | apply still_or_KeyError | apply still_incr
               | apply still_save | apply still_display_hand
               | apply still_first_hand | apply still_bind; [|intros ?] ].

Ltac still_step :=
  apply post_bind, post_still; [by still_solve|intros ? ? ?].

Ltac heap_back :=
  repeat match goal with
  | H : heap ?w' = heap ?w |- _ => rewrite H in *; clear H
  end.

Section DeckConserved.

Variable entropy : nat → nat.
Variable upper : string → string.
Variable heap0 : list (list Card).
Variable cards : loc.
Variable deck0 : list Card.
Hypothesis deck0_at : heap0 !! cards = Some deck0.

(** A deal keeps the account of the cards. *)
Lemma conserved_deal hands hands' card w w' :
  conserved heap0 cards deck0 hands (heap w) →
  deal_card entropy cards w = Done card w' →
  hands' ≡ₚ hands ++ [card] →
  conserved heap0 cards deck0 hands' (heap w').
Proof.
  intros Hcons Hdeal Hperm Hlen.
  rewrite Hperm, length_app in Hlen. simpl in Hlen.
  destruct Hcons as (left & Hheap & Hleft); [lia|].
  assert (length left + length hands = length deck0)%nat as Hsize.
  { by rewrite <-length_app, Hleft. }
  destruct left as [|c left _] using rev_ind; [simpl in Hsize; lia|].
  assert (heap w !! cards = Some (left ++ [c])) as Hat.
  { rewrite Hheap. apply list_lookup_insert_eq. by eapply lookup_lt_Some. }
  rewrite (deal_card_pops entropy cards w left c Hat) in Hdeal.
  injection Hdeal as <- <-. exists left. cbn [heap set_heap]. split.
  - rewrite Hheap. by rewrite list_insert_insert_eq.
  - rewrite Hperm, <-Hleft. rewrite <-!(assoc_L (++)).
    apply Permutation_app_head, Permutation_app_comm.
Qed.

Lemma post_deal_then {A : Type} (f : Card → M A) w (Q : A → world → Prop) :
  (∀ card w1, deal_card entropy cards w = Done card w1 → post (f card) w1 Q) →
  post (deal_card entropy cards ≫= f) w Q.
Proof.
  intros Hf. unfold post at 1, mbind, M_bind.
  destruct (deal_card entropy cards w) as [card w1| |] eqn:Hdeal; [|done..].
  by apply Hf.
Qed.

Lemma deal_hands_conserves n r w :
  post (deal_hands entropy n cards r) w (λ r' w',
    conserved heap0 cards deck0 (dealt r) (heap w) →
    conserved heap0 cards deck0 (dealt r') (heap w')).
Proof.
  revert r w. induction n as [|n IH]; intros r w; simpl; [by apply post_ret|].
  apply post_deal_then. intros c1 w1 Hd1.
  apply post_deal_then. intros c2 w2 Hd2.
  eapply post_mono; [apply IH|]. unfold dealt. rsimpl.
  intros r' w' Hcons Hstart. apply Hcons.
  eapply (conserved_deal _ _ c2 w1 w2); [|done|].
  - eapply (conserved_deal _ ((player_hand r ++ [c1]) ++ dealer_hand r) c1 w w1);
      [done|done|].
    rewrite <-!(assoc_L (++)). apply Permutation_app_head, Permutation_app_comm.
  - by rewrite !(assoc_L (++)).
Qed.

Lemma player_step_conserves r w :
  post (player_step entropy upper cards r) w (λ res w',
    conserved heap0 cards deck0 (dealt r) (heap w) →
    match res with
    | inl r' | inr r' => conserved heap0 cards deck0 (dealt r') (heap w')
    end).
Proof.
  unfold player_step, dealt. do 2 still_step.
  case_bool_decide as Hhit; [|case_bool_decide as Hstand].
  - apply post_deal_then. intros card w1 Hdeal. cbv zeta. rsimpl.
    do 4 still_step.
    assert (conserved heap0 cards deck0 (player_hand r ++ dealer_hand r) (heap w) →
            conserved heap0 cards deck0
              ((player_hand r ++ [card]) ++ dealer_hand r) (heap w1)) as Hcons.
    { intros Hstart.
      eapply (conserved_deal (player_hand r ++ dealer_hand r) _ card); [|done|].
      - by heap_back.
      - rewrite <-!(assoc_L (++)). apply Permutation_app_head, Permutation_app_comm. }
    case_bool_decide as Hbust.
    + do 7 still_step. apply post_ret. rsimpl. intros Hstart. heap_back. by apply Hcons.
    + apply post_ret. rsimpl. intros Hstart. heap_back. by apply Hcons.
  - apply post_ret. intros Hstart. by heap_back.
  - still_step. apply post_ret. intros Hstart. by heap_back.
Qed.

Lemma dealer_step_conserves r w :
  post (dealer_step entropy cards r) w (λ res w',
    conserved heap0 cards deck0 (dealt r) (heap w) →
    match res with
    | inl r' | inr r' => conserved heap0 cards deck0 (dealt r') (heap w')
    end).
Proof.
  unfold dealer_step, dealt. still_step.
  case_bool_decide as Hlow.
  - still_step. apply post_deal_then. intros card w1 Hdeal. cbv zeta. rsimpl.
    do 4 still_step.
    assert (conserved heap0 cards deck0 (player_hand r ++ dealer_hand r) (heap w) →
            conserved heap0 cards deck0
              (player_hand r ++ dealer_hand r ++ [card]) (heap w1)) as Hcons.
    { intros Hstart.
      eapply (conserved_deal (player_hand r ++ dealer_hand r) _ card); [|done|].
      - by heap_back.
      - by rewrite (assoc_L (++)). }
    case_bool_decide as Hbust.
    + do 3 still_step. apply post_ret. rsimpl. intros Hstart. heap_back.
      by apply Hcons.
    + apply post_ret. rsimpl. intros Hstart. heap_back. by apply Hcons.
  - apply post_ret. intros Hstart. by heap_back.
Qed.

Lemma player_turn_conserves fuel r w :
  post (player_turn entropy upper fuel cards r) w (λ r' w',
    conserved heap0 cards deck0 (dealt r) (heap w) →
    conserved heap0 cards deck0 (dealt r') (heap w')).
Proof.
  unfold player_turn.
  apply (post_loop (λ r1 w1,
    conserved heap0 cards deck0 (dealt r) (heap w) →
    conserved heap0 cards deck0 (dealt r1) (heap w1))); [done|].
  intros r1 w1 Hinv. eapply post_mono; [apply player_step_conserves|].
  intros [r'|r'] w' Hstep Hstart; by apply Hstep, Hinv.
Qed.

Lemma dealer_turn_conserves fuel r w :
  post (dealer_turn entropy fuel cards r) w (λ r' w',
    conserved heap0 cards deck0 (dealt r) (heap w) →
    conserved heap0 cards deck0 (dealt r') (heap w')).
Proof.
  unfold dealer_turn. destruct (bust r); [by apply post_ret|].
  do 4 still_step. unfold dealer_draws.
  apply (post_loop (λ r1 w1,
    conserved heap0 cards deck0 (dealt r) (heap w) →
    conserved heap0 cards deck0 (dealt r1) (heap w1))).
  { intros Hstart. by heap_back. }
  intros r1 w1 Hinv. eapply post_mono; [apply dealer_step_conserves|].
  intros [r'|r'] wend Hstep Hstart; by apply Hstep, Hinv.
Qed.

Lemma compare_totals_conserves r w :
  post (compare_totals r) w (λ r' w',
    conserved heap0 cards deck0 (dealt r) (heap w) →
    conserved heap0 cards deck0 (dealt r') (heap w')).
Proof.
  unfold compare_totals, dealt. do 2 still_step. cbv zeta.
  case_bool_decide;
    [|destruct (_ && _); [|destruct (_ && _)]].
  4: { apply post_ret. intros Hstart. by heap_back. }
  all: do 3 still_step; apply post_ret; rsimpl; intros Hstart; by heap_back.
Qed.

Lemma game_round_conserves fuel stats w :
  heap w = heap0 →
  post (game_round entropy upper fuel cards stats) w (λ r w',
    conserved heap0 cards deck0 (dealt r) (heap w')).
Proof.
  intros Hw. unfold game_round. still_step. cbv zeta.
  apply post_bind. eapply post_mono; [apply deal_hands_conserves|].
  intros r1 w1 H1. still_step.
  apply post_bind. eapply post_mono; [apply player_turn_conserves|].
  intros r2 w2 H2.
  apply post_bind. eapply post_mono; [apply dealer_turn_conserves|].
  intros r3 w3 H3.
  apply post_bind. eapply post_mono; [apply compare_totals_conserves|].
  intros r4 w4 H4. still_step. apply post_ret.
  heap_back. apply H4, H3, H2, H1.
  intros _. exists deck0. split; [|by rewrite app_nil_r].
  by rewrite list_insert_id.
Qed.

End DeckConserved.

(** X15: no card is made or lost while the deck lasts.  In a completed
    round whose hands hold no more cards than the deck had at its start,
    every card of the hands was popped from the deck: the cards left in the
    deck and the cards of the two hands are, up to order, the cards the deck
    had; no other list is touched; and if the deck had no card twice, no
    card is twice in the hands. *)
Theorem deck_conserved entropy upper fuel cards stats w r w' deck :
  heap w !! cards = Some deck →
  game_round entropy upper fuel cards stats w = Done r w' →
  (length (player_hand r) + length (dealer_hand r) ≤ length deck)%nat →
  ∃ left,
    heap w' = <[cards := left]> (heap w)
    ∧ left ++ player_hand r ++ dealer_hand r ≡ₚ deck
    ∧ (NoDup deck → NoDup (player_hand r ++ dealer_hand r)).
Proof.
  intros Hdeck Hrun Hlen.
  pose proof (post_Done _ _ _ _ _
    (game_round_conserves entropy upper (heap w) cards deck Hdeck fuel stats w eq_refl)
    Hrun) as Hcons.
  destruct Hcons as (left & Hheap & Hperm).
  { unfold dealt. by rewrite length_app. }
  exists left. split_and!; [done|done|].
  intros Hnodup. rewrite <-Hperm in Hnodup.
  by apply NoDup_app in Hnodup as (_ & _ & ?).
Qed.

(** ** The whole program *)

Section WholeProgram.

Variable entropy : nat → nat.
Variable upper : string → string.

(** [play_again] with more fuel than lines of input: it returns, having read
    a line, or it raises [SystemExit] or [EOFError]. *)
Lemma play_again_safe cards fuel w :
  valid_hand (items_at cards w) → (length (stdin w) < fuel)%nat →
  wpx (λ e, e = EOFError ∨ e = SystemExit) (play_again upper fuel) w
    (λ _ w', valid_hand (items_at cards w')
             ∧ (length (stdin w') < length (stdin w))%nat).
Proof.
  unfold play_again. revert w.
  induction fuel as [|fuel IH]; intros w Hw Hfuel; [lia|].
  simpl. apply wpx_bind. unfold play_again_step at 1.
  apply wpx_bind. unfold wpx at 1, input.
  destruct (stdin w) as [|line rest] eqn:Hin; [by left|].
  case_bool_decide as HP; [|case_bool_decide as HQ].
  - unfold wpx, mbind, M_bind, print, mret, M_ret. cbn. split; [done|lia].
  - unfold wpx, mbind, M_bind, quit, raise. cbn. by right.
  - unfold wpx at 1, mbind at 1, M_bind at 1, print, mret, M_ret.
    cbn [set_console set_stdin]. change (length (line :: rest)) with (S (length rest)).
    eapply wpx_mono; [apply IH|done|].
    + done.
    + cbn in *. lia.
    + intros _ w' [Hw' Hlt]. split; [done|]. cbn in *. lia.
Qed.

(** The loop of [main] is left only by [SystemExit] or [EOFError]. *)
Lemma main_loop_safe fuel0 fuel cards stats w :
  (18 ≤ fuel0)%nat → (length (stdin w) < fuel0)%nat →
  (length (stdin w) < fuel)%nat →
  has_counters stats → valid_hand (items_at cards w) →
  wpx (λ e, e = EOFError ∨ e = SystemExit)
    (loop fuel (main_step entropy upper fuel0 cards) stats) w (λ _ _, False).
Proof.
  intros Hfuel0. revert stats w.
  induction fuel as [|fuel IH]; intros stats w Hlines0 Hlines Hs Hw; [lia|].
  simpl. apply wpx_bind. unfold main_step at 1.
  apply wpx_bind.
  eapply wpx_mono; [by apply game_round_safe|by left|].
  intros r w1 ((_ & _ & Hs1) & Hw1 & Hin1).
  apply wpx_bind.
  eapply wpx_mono; [apply (play_again_safe cards); [done|lia]|done|].
  intros [] w2 [Hw2 Hin2]. unfold wpx at 1, mret, M_ret.
  apply IH; [lia|lia|done..].
Qed.

(** The deck that [main] makes holds cards of the thirteen ranks. *)
Lemma fresh_deck_valid w w1 w2 cards :
  create_deck w = Done cards w1 →
  shuffle_deck entropy cards w1 = Done () w2 →
  valid_hand (items_at cards w2) ∧ stdin w2 = stdin w
  ∧ stats_file w2 = stats_file w.
Proof.
  unfold create_deck, alloc, shuffle_deck. intros [= <- <-] [= <-].
  split; [|done]. unfold items_at. cbn [heap set_heap set_draws].
  rewrite list_lookup_insert_eq by (rewrite length_app; simpl; lia).
  cbn [default]. rewrite lookup_app_r, Nat.sub_diag by done. cbn [lookup list_lookup default].
  unfold valid_hand. rewrite shuffle_Permutation. apply valid_hand_new_deck.
Qed.

(** The steps of [main] before its loop. *)
Lemma main_start fuel w :
  ∃ stats lines,
    load_game_stats w = Done stats w
    ∧ ((has_counters stats
        ∧ ∃ w1 cards,
            main entropy upper fuel w = main_loop entropy upper fuel cards stats w1
            ∧ valid_hand (items_at cards w1) ∧ stdin w1 = stdin w
            ∧ stats_file w1 = stats_file w)
       ∨ (¬ has_counters stats
          ∧ main entropy upper fuel w
            = Raised KeyError (set_console (console w ++ (Printed <$> lines)) w))).
Proof.
  destruct (load_game_stats w) as [stats w0|e w0|] eqn:Hload.
  2,3: unfold load_game_stats in Hload; by destruct (stats_file w).
  assert (w0 = w) as ->.
  { unfold load_game_stats in Hload. destruct (stats_file w); by injection Hload. }
  exists stats.
  assert (∃ text, welcome w = Done () (set_console (console w ++ [Printed text]) w))
    as [text Hwelcome].
  { unfold welcome, print. destruct (welcome_file w); eauto. }
  assert (∀ w', load_game_stats (set_console w' w) = Done stats (set_console w' w))
    as Hload'.
  { intros w'. unfold load_game_stats in *. cbn [stats_file set_console].
    destruct (stats_file w); injection Hload as <-; done. }
  destruct (display_game_stats_cases stats
              (set_console (console w ++ [Printed text]) w))
    as (lines & [(Hs & _ & Hshow)|(Hn & Hshow)]).
  - exists []. split; [done|]. left. split; [done|].
    unfold main. unfold mbind at 1, M_bind at 1. rewrite Hwelcome.
    unfold mbind at 1, M_bind at 1. rewrite Hload'.
    unfold mbind at 1, M_bind at 1. rewrite Hshow.
    unfold mbind at 1, M_bind at 1. unfold print at 1.
    unfold mbind at 1, M_bind at 1.
    destruct (create_deck _) as [cards w1|e w1|] eqn:Hdeck; [|done..].
    unfold mbind at 1, M_bind at 1.
    destruct (shuffle_deck entropy cards w1) as [[] w2|e w2|] eqn:Hshuffle; [|done..].
    exists w2, cards. split; [done|].
    by apply (fresh_deck_valid _ _ _ _ Hdeck Hshuffle).
  - exists (text :: lines). split; [done|]. right. split; [done|].
    unfold main. unfold mbind at 1, M_bind at 1. rewrite Hwelcome.
    unfold mbind at 1, M_bind at 1. rewrite Hload'.
    unfold mbind at 1, M_bind at 1. rewrite Hshow.
    unfold set_console. cbn. by rewrite <-(assoc_L (++)).
Qed.


(** X17: a file [game_stats.json] that lacks one of the six counters stops
    the program before the first round: [main] raises [KeyError] while it
    shows the statistics, having written to the terminal only; no card is
    dealt, no input is read, and the file is left as it is. *)
Theorem main_missing_counter fuel w stats :
  stats_file w = Some stats → ¬ has_counters stats →
  ∃ w', main entropy upper fuel w = Raised KeyError w'
        ∧ heap w' = heap w ∧ stdin w' = stdin w
        ∧ stats_file w' = Some stats.
Proof.
  intros Hfile Hn.
  destruct (main_start fuel w) as (stats' & lines & Hload & Hrun).
  unfold load_game_stats in Hload. rewrite Hfile in Hload. injection Hload as <-.
  destruct Hrun as [(Hs & _)|(_ & ->)]; [done|]. eauto.
Qed.

End WholeProgram.

(** * The further theorems on concrete inputs *)

Lemma calculate_hand_best_witness :
  valid_hand [mkCard "Hearts" "A"; mkCard "Spades" "9"; mkCard "Clubs" "A"]
  ∧ ∃ t,
      calculate_hand [mkCard "Hearts" "A"; mkCard "Spades" "9"; mkCard "Clubs" "A"]
      = Some t
      ∧ (∀ k : nat,
           (k ≤ num_aces [mkCard "Hearts" "A"; mkCard "Spades" "9"; mkCard "Clubs" "A"])%nat →
           spec_sum [mkCard "Hearts" "A"; mkCard "Spades" "9"; mkCard "Clubs" "A"]
             - 10 * Z.of_nat k ≤ 21 →
           spec_sum [mkCard "Hearts" "A"; mkCard "Spades" "9"; mkCard "Clubs" "A"]
             - 10 * Z.of_nat k ≤ t ≤ 21).
Proof.
  assert (valid_hand [mkCard "Hearts" "A"; mkCard "Spades" "9"; mkCard "Clubs" "A"])
    as Hv.
  { apply (bool_decide_unpack _). vm_compute. reflexivity. }
  split; [exact Hv|].
  destruct (calculate_hand_best _ Hv) as (t & Ht & _ & Hbest & _).
  exists t. split; [exact Ht|exact Hbest].
Defined.

Lemma two_cards_never_bust_witness :
  valid_hand [mkCard "Hearts" "A"; mkCard "Spades" "A"]
  ∧ ∃ t, calculate_hand [mkCard "Hearts" "A"; mkCard "Spades" "A"] = Some t
         ∧ 4 ≤ t ≤ 21.
Proof.
  assert (valid_hand [mkCard "Hearts" "A"; mkCard "Spades" "A"]) as Hv.
  { apply (bool_decide_unpack _). vm_compute. reflexivity. }
  split; [exact Hv|].
  exact (two_cards_never_bust _ _ Hv).
Defined.

Lemma play_again_answers_witness :
  Forall (λ token, ascii_upper token ≠ "P" ∧ ascii_upper token ≠ "Q") ["x"; "yes"]
  ∧ play_again ascii_upper (length ["x"; "yes"] + 1)
      (example_world [] ["x"; "yes"; "p"; "q"])
    = Done ()
        (set_console
           (console (example_world [] ["x"; "yes"; "p"; "q"])
            ++ (["x"; "yes"] ≫= λ _, play_again_rejection)
            ++ [Prompted "Enter [P] to play again or [Q] to quit: "; Printed ""])
           (set_stdin ["q"] (example_world [] ["x"; "yes"; "p"; "q"])))
  ∧ play_again ascii_upper (length ["x"; "yes"] + 1)
      (example_world [] ["x"; "yes"; "Q"; "p"])
    = Raised SystemExit
        (set_console
           (console (example_world [] ["x"; "yes"; "Q"; "p"])
            ++ (["x"; "yes"] ≫= λ _, play_again_rejection)
            ++ [Prompted "Enter [P] to play again or [Q] to quit: "])
           (set_stdin ["p"] (example_world [] ["x"; "yes"; "Q"; "p"])))
  ∧ play_again ascii_upper (length ["x"; "yes"] + 1)
      (example_world [] ["x"; "yes"])
    = Raised EOFError
        (set_console
           (console (example_world [] ["x"; "yes"])
            ++ (["x"; "yes"] ≫= λ _, play_again_rejection)
            ++ [Prompted "Enter [P] to play again or [Q] to quit: "])
           (set_stdin [] (example_world [] ["x"; "yes"]))).
Proof.
  assert (Forall (λ token, ascii_upper token ≠ "P" ∧ ascii_upper token ≠ "Q")
            ["x"; "yes"]) as Hbad.
  { repeat constructor; by vm_compute. }
  split; [exact Hbad|]. split_and!.
  - exact (proj1 (play_again_answers ascii_upper ["x"; "yes"] ["q"] "p" 0
                    (example_world [] ["x"; "yes"; "p"; "q"]) Hbad)
             eq_refl eq_refl).
  - exact (proj1 (proj2 (play_again_answers ascii_upper ["x"; "yes"] ["p"] "Q" 0
                           (example_world [] ["x"; "yes"; "Q"; "p"]) Hbad))
             eq_refl eq_refl).
  - exact (proj2 (proj2 (play_again_answers ascii_upper ["x"; "yes"] [] "" 0
                           (example_world [] ["x"; "yes"]) Hbad))
             eq_refl).
Defined.

Lemma stand_changes_nothing_witness :
  Forall (λ token, ascii_upper token ≠ "H" ∧ ascii_upper token ≠ "S") ["x"; "hit"]
  ∧ stdin (example_world deck_stand ["x"; "hit"; "s"; "p"]) = ["x"; "hit"] ++ "s" :: ["p"]
  ∧ ascii_upper "s" = "S"
  ∧ player_turn example_entropy ascii_upper (length ["x"; "hit"] + 1) 0%nat
      round_dealer_16 (example_world deck_stand ["x"; "hit"; "s"; "p"])
    = Done round_dealer_16
        (set_console
           (console (example_world deck_stand ["x"; "hit"; "s"; "p"])
            ++ (["x"; "hit"] ≫= λ _, hit_stand_rejection)
            ++ [Prompted "Enter [H] to hit or [S] to stand: "; Printed ""])
           (set_stdin ["p"] (example_world deck_stand ["x"; "hit"; "s"; "p"]))).
Proof.
  assert (Forall (λ token, ascii_upper token ≠ "H" ∧ ascii_upper token ≠ "S")
            ["x"; "hit"]) as Hbad.
  { repeat constructor; by vm_compute. }
  split_and!; [exact Hbad|reflexivity|reflexivity|].
  exact (stand_changes_nothing example_entropy ascii_upper ["x"; "hit"] ["p"] "s" 0
           0%nat round_dealer_16 (example_world deck_stand ["x"; "hit"; "s"; "p"])
           Hbad eq_refl eq_refl).
Defined.




Lemma round_saves_counters_witness :
  ∃ r w',
    game_round example_entropy ascii_upper 20 0%nat zero_stats
      (example_world deck_stand ["s"]) = Done r w'
    ∧ stats_file w' = Some (game_stats r)
    ∧ load_game_stats w' = Done (game_stats r) w'.
Proof.
  destruct (game_round example_entropy ascii_upper 20 0%nat zero_stats
              (example_world deck_stand ["s"])) as [r w'| |] eqn:Hrun;
    [|by vm_compute in Hrun..].
  exists r, w'. split; [reflexivity|].
  exact (round_saves_counters _ _ _ _ _ _ _ _ Hrun).
Defined.

Lemma round_keeps_counters_consistent_witness :
  consistent zero_stats
  ∧ ∃ r w',
      game_round example_entropy ascii_upper 20 0%nat zero_stats
        (example_world deck_bust ["h"]) = Done r w'
      ∧ consistent (game_stats r).
Proof.
  assert (consistent zero_stats) as Hzero.
  { exists 0, 0, 0, 0, 0, 0. split_and!; first [lia|vm_compute; reflexivity]. }
  split; [exact Hzero|].
  destruct (game_round example_entropy ascii_upper 20 0%nat zero_stats
              (example_world deck_bust ["h"])) as [r w'| |] eqn:Hrun;
    [|by vm_compute in Hrun..].
  exists r, w'. split; [reflexivity|].
  exact (round_keeps_counters_consistent _ _ _ _ _ _ _ _ Hrun Hzero).
Defined.

Lemma deck_conserved_witness :
  heap (example_world deck_stand ["s"]) !! 0%nat = Some deck_stand
  ∧ ∃ r w',
      game_round example_entropy ascii_upper 20 0%nat zero_stats
        (example_world deck_stand ["s"]) = Done r w'
      ∧ (length (player_hand r) + length (dealer_hand r) ≤ length deck_stand)%nat
      ∧ ∃ left,
          heap w' = <[0%nat := left]> (heap (example_world deck_stand ["s"]))
          ∧ left ++ player_hand r ++ dealer_hand r ≡ₚ deck_stand
          ∧ (NoDup deck_stand → NoDup (player_hand r ++ dealer_hand r)).
Proof.
  split; [reflexivity|].
  destruct (game_round example_entropy ascii_upper 20 0%nat zero_stats
              (example_world deck_stand ["s"])) as [r w'| |] eqn:Hrun;
    [|by vm_compute in Hrun..].
  assert (length (player_hand r) + length (dealer_hand r) ≤ length deck_stand)%nat
    as Hlen.
  { vm_compute in Hrun. injection Hrun as <- _. simpl. lia. }
  exists r, w'. split_and!; [reflexivity|exact Hlen|].
  exact (deck_conserved _ _ _ 0%nat _ (example_world deck_stand ["s"]) _ _ deck_stand
           eq_refl Hrun Hlen).
Defined.


Lemma main_missing_counter_witness :
  stats_file (World [] 0 ["s"; "q"] [] None (Some (<[TOTAL_GAMES := 3]> ∅)))
    = Some (<[TOTAL_GAMES := 3]> ∅)
  ∧ ¬ has_counters (<[TOTAL_GAMES := 3]> ∅)
  ∧ ∃ w',
      main example_entropy ascii_upper 20
        (World [] 0 ["s"; "q"] [] None (Some (<[TOTAL_GAMES := 3]> ∅)))
        = Raised KeyError w'
      ∧ heap w' = [] ∧ stdin w' = ["s"; "q"]
      ∧ stats_file w' = Some (<[TOTAL_GAMES := 3]> ∅).
Proof.
  assert (¬ has_counters (<[TOTAL_GAMES := 3]> ∅)) as Hn.
  { intros Hc. apply Forall_cons in Hc as [_ Hc]. apply Forall_cons in Hc as [[v Hv] _].
    vm_compute in Hv. discriminate Hv. }
  split_and!; [reflexivity|exact Hn|].
  exact (main_missing_counter example_entropy ascii_upper 20
           (World [] 0 ["s"; "q"] [] None (Some (<[TOTAL_GAMES := 3]> ∅)))
           (<[TOTAL_GAMES := 3]> ∅) eq_refl Hn).
Defined.

Lemma round_result_follows_totals_witness :
  ∃ r w',
    game_round example_entropy ascii_upper 20 0%nat zero_stats
      (example_world deck_stand ["s"]) = Done r w'
    ∧ ∃ pt dt,
        calculate_hand (player_hand r) = Some pt
        ∧ calculate_hand (dealer_hand r) = Some dt
        ∧ (increased TOTAL_WINS zero_stats (game_stats r)
           ↔ pt ≤ 21 ∧ (21 < dt ∨ dt < pt))
        ∧ (increased TOTAL_LOSSES zero_stats (game_stats r)
           ↔ 21 < pt ∨ (dt ≤ 21 ∧ pt < dt))
        ∧ (increased TOTAL_TIES zero_stats (game_stats r) ↔ pt = dt ∧ pt ≤ 21).
Proof.
  destruct (game_round example_entropy ascii_upper 20 0%nat zero_stats
              (example_world deck_stand ["s"])) as [r w'| |] eqn:Hrun;
    [|by vm_compute in Hrun..].
  exists r, w'. split; [reflexivity|].
  destruct (round_result_follows_totals _ _ _ _ _ _ _ _ Hrun)
    as (pt & dt & Hpt & Hdt & Hwins & Hlosses & Hties & _).
  exists pt, dt. split_and!; [exact Hpt|exact Hdt|exact Hwins|exact Hlosses|exact Hties].
Defined.

(** ** The dealer's loop: the cards come from the deck *)

Lemma set_console_twice c c' w : set_console c (set_console c' w) = set_console c w.
Proof. done. Qed.

Lemma terminal_only_ret {A : Type} (a : A) : terminal_only (mret a).
Proof. intros w. unfold post, mret, M_ret. by destruct w. Qed.

Lemma terminal_only_bind {A B : Type} (m : M A) (f : A → M B) :
  terminal_only m → (∀ a, terminal_only (f a)) → terminal_only (m ≫= f).
Proof.
  intros Hm Hf w. apply post_bind. eapply post_mono; [apply Hm|].
  intros a w1 H1. eapply post_mono; [apply Hf|].
  intros b w2 H2. simpl in *. rewrite H2, H1. done.
Qed.

Lemma terminal_only_or_KeyError {A : Type} (o : option A) : terminal_only (or_KeyError o).
Proof. intros w. destruct o; [|done]. unfold post. simpl. by destruct w. Qed.

Lemma terminal_only_print text : terminal_only (print text).
Proof. by intros w. Qed.

Lemma terminal_only_incr key stats : terminal_only (incr key stats).
Proof.
  apply terminal_only_bind; [apply terminal_only_or_KeyError|].
  intros v. apply terminal_only_ret.
Qed.

Lemma terminal_only_for_each {A : Type} (l : list A) (body : A → M unit) :
  (∀ a, terminal_only (body a)) → terminal_only (for_each l body).
Proof.
  intros Hbody. induction l as [|a l IH]; [apply terminal_only_ret|].
  simpl. apply terminal_only_bind; [apply Hbody|]. by intros _.
Qed.

Lemma terminal_only_display_hand hand show_all :
  terminal_only (display_hand hand show_all).
Proof.
  destruct hand as [|first rest]; [by intros w|].
  simpl. apply terminal_only_bind; [apply terminal_only_print|]. intros _.
  destruct show_all; [|apply terminal_only_print].
  apply terminal_only_for_each. intros card. apply terminal_only_print.
Qed.

Lemma post_terminal_only {A : Type} (m : M A) w (Q : A → world → Prop) :
  terminal_only m →
  (∀ a w', w' = set_console (console w') w → Q a w') → post m w Q.
Proof. intros Hm HQ. eapply post_mono; [apply Hm|]. done. Qed.

Lemma terminal_only_fields w w' :
  w' = set_console (console w') w
  ↔ heap w' = heap w ∧ draws w' = draws w ∧ stdin w' = stdin w
    ∧ welcome_file w' = welcome_file w ∧ stats_file w' = stats_file w.
Proof.
  split.
  - intros ->. done.
  - destruct w, w'. simpl. intros (-> & -> & -> & -> & ->). done.
Qed.

Ltac terminal_close :=
  rewrite !terminal_only_fields in *;
  cbn [heap draws stdin welcome_file stats_file set_console] in *;
  intuition congruence.

Ltac terminal_solve :=
  first [ apply terminal_only_print | apply terminal_only_or_KeyError
        | apply terminal_only_incr | apply terminal_only_display_hand
        | apply terminal_only_ret ].

Ltac terminal_step :=
  apply post_bind, post_terminal_only; [by terminal_solve|intros ? ? ?].

Section DealerDeals.

Variable entropy : nat → nat.

(** What a deal does, it does whatever the terminal shows. *)
Lemma deal_card_set_console (deck : loc) c w card w' :
  deal_card entropy deck w = Done card w' →
  deal_card entropy deck (set_console c w) = Done card (set_console c w').
Proof.
  intros Hdeal.
  destruct (items_at deck w) as [|top x _] eqn:Hx using rev_ind.
  - destruct (deal_card_rebuilds entropy deck w Hx) as (card1 & rest1 & Hs1 & Hrun1).
    destruct (deal_card_rebuilds entropy deck (set_console c w) Hx)
      as (card2 & rest2 & Hs2 & Hrun2).
    cbn [draws set_console heap] in Hs2, Hrun2.
    rewrite Hs1 in Hs2. apply app_inj_tail in Hs2 as [<- <-].
    rewrite Hrun1 in Hdeal. injection Hdeal as <- <-. by rewrite Hrun2.
  - assert (heap w !! deck = Some (x ++ [top])) as Hd.
    { unfold items_at in Hx. destruct (heap w !! deck) as [y|]; simpl in Hx.
      - by rewrite Hx.
      - by destruct x. }
    rewrite (deal_card_pops entropy deck w x top Hd) in Hdeal.
    injection Hdeal as <- <-.
    by rewrite (deal_card_pops entropy deck (set_console c w) x top Hd).
Qed.

Lemma deal_cards_snoc (n : nat) (deck : loc) w dealt w1 card w2 :
  deal_cards entropy n deck w = Done dealt w1 →
  deal_card entropy deck w1 = Done card w2 →
  deal_cards entropy (S n) deck w = Done (dealt ++ [card]) w2.
Proof.
  revert w dealt. induction n as [|n IH]; intros w dealt Hn Hlast.
  - injection Hn as <- <-. simpl. unfold mbind, M_bind. by rewrite Hlast.
  - change (deal_cards entropy (S n) deck w) with
      ((card ← deal_card entropy deck;
        rest ← deal_cards entropy n deck; mret (card :: rest)) w) in Hn.
    change (deal_cards entropy (S (S n)) deck w) with
      ((card ← deal_card entropy deck;
        rest ← deal_cards entropy (S n) deck; mret (card :: rest)) w).
    unfold mbind at 1, M_bind at 1 in Hn. unfold mbind at 1, M_bind at 1.
    destruct (deal_card entropy deck w) as [card0 w0| |]; [|done..].
    unfold mbind at 1, M_bind at 1 in Hn. unfold mbind at 1, M_bind at 1.
    destruct (deal_cards entropy n deck w0) as [dealt0 w0'| |] eqn:Hrest; [|done..].
    injection Hn as <- <-.
    by rewrite (IH w0 dealt0 Hrest Hlast).
Qed.

(** Deals from a deck that has the cards for them pop its last cards. *)
Lemma deal_cards_pops (deck : loc) w (left top : list Card) :
  heap w !! deck = Some (left ++ top) →
  deal_cards entropy (length top) deck w
  = Done (reverse top) (set_heap (<[deck := left]> (heap w)) w).
Proof.
  revert w. induction top as [|card top IH] using rev_ind; intros w Hd.
  - simpl. rewrite app_nil_r in Hd. rewrite list_insert_id by done.
    unfold mret, M_ret. by destruct w.
  - rewrite length_app, Nat.add_comm. cbn [length Nat.add].
    rewrite reverse_app. cbn [reverse rev_append app].
    change (deal_cards entropy (S (length top)) deck w) with
      ((card ← deal_card entropy deck;
        rest ← deal_cards entropy (length top) deck; mret (card :: rest)) w).
    unfold mbind at 1, M_bind at 1.
    rewrite (deal_card_pops entropy deck w (left ++ top) card)
      by (by rewrite <-(assoc_L (++))).
    unfold mbind at 1, M_bind at 1. rewrite IH.
    + cbn [heap set_heap]. rewrite list_insert_insert_eq. done.
    + cbn [heap set_heap]. apply list_lookup_insert_eq. by eapply lookup_lt_Some.
Qed.

Variable cards : loc.

(** One turn of the dealer's loop either stops at once, or deals one card
    from the deck and puts it into the dealer's hand. *)
Lemma dealer_step_deals r w :
  post (dealer_step entropy cards r) w (λ res w',
    (res = inr r ∧ w' = w)
    ∨ ∃ card w1,
        deal_card entropy cards w = Done card w1
        ∧ w' = set_console (console w') w1
        ∧ dealer_hand (match res with inl r' | inr r' => r' end)
          = dealer_hand r ++ [card]).
Proof.
  unfold dealer_step.
  apply post_bind, post_or_KeyError. intros total Htotal.
  case_bool_decide as Hlow; [|apply post_ret; by left].
  apply post_bind, post_print. apply post_bind.
  destruct (deal_card_Done entropy cards w) as (card & w1 & Hdeal).
  unfold post at 1.
  rewrite (deal_card_set_console cards _ w card w1 Hdeal).
  cbv zeta. rsimpl.
  do 4 terminal_step.
  case_bool_decide as Hbust.
  - do 3 terminal_step. apply post_ret. right. exists card, w1. rsimpl.
    split_and!; [done| |done]. terminal_close.
  - apply post_ret. right. exists card, w1. rsimpl.
    split_and!; [done| |done]. terminal_close.
Qed.

(** The cards the dealer draws are the cards that [deal_card] deals from
    the deck, one deal for each, and the loop does nothing else but write to
    the terminal. *)
Lemma dealer_draws_deals fuel r w :
  post (dealer_draws entropy fuel cards r) w (λ r' w',
    ∃ drawn w'',
      dealer_hand r' = dealer_hand r ++ drawn
      ∧ deal_cards entropy (length drawn) cards w = Done drawn w''
      ∧ w' = set_console (console w') w'').
Proof.
  unfold dealer_draws.
  apply (post_loop (λ r1 w1,
    ∃ drawn w'',
      dealer_hand r1 = dealer_hand r ++ drawn
      ∧ deal_cards entropy (length drawn) cards w = Done drawn w''
      ∧ w1 = set_console (console w1) w'')).
  { exists [], w. rewrite app_nil_r. split_and!; [done..|]. by destruct w. }
  intros r1 w1 (drawn & w'' & Hhand & Hdeals & Hw1).
  eapply post_mono; [apply dealer_step_deals|].
  intros res w2 [[-> ->]|(card & w1' & Hdeal & Hw2 & Hhand2)].
  { by exists drawn, w''. }
  destruct (deal_card_Done entropy cards w'') as (card' & w2'' & Hdeal').
  pose proof (deal_card_set_console cards (console w1) w'' card' w2'' Hdeal') as Hsame.
  rewrite <-Hw1, Hdeal in Hsame. injection Hsame as -> ->.
  assert (∃ r2, (res = inl r2 ∨ res = inr r2)
                ∧ dealer_hand r2 = dealer_hand r1 ++ [card']) as (r2 & Hres & Hr2).
  { destruct res as [r2|r2]; exists r2; eauto. }
  assert (∃ drawn' w3,
            dealer_hand r2 = dealer_hand r ++ drawn'
            ∧ deal_cards entropy (length drawn') cards w = Done drawn' w3
            ∧ w2 = set_console (console w2) w3) as Hgoal.
  { exists (drawn ++ [card']), w2''. split_and!.
    - by rewrite Hr2, Hhand, <-(assoc_L (++)).
    - rewrite length_app, Nat.add_comm. by apply (deal_cards_snoc _ _ _ _ w'').
    - by rewrite Hw2. }
  by destruct Hres as [-> | ->].
Qed.

End DealerDeals.

Ltac counters :=
  repeat match goal with
  | H : bump _ _ _ |- _ => destruct H as (? & ? & ->)
  end;
  unfold increased, unchanged, TOTAL_GAMES, TOTAL_WINS, TOTAL_LOSSES,
    TOTAL_TIES, PLAYER_BUSTS, DEALER_BUSTS in *;
  repeat split; simplify_map_eq; eauto.

(** C4: the dealer's loop, with fuel for 18 turns, always comes to an end
    (or to an exception), whatever the player's hand, and it ends without an
    exception when the hands and the deck hold cards of the thirteen ranks
    and the counters are there.  When it ends, the cards [drawn] were added
    to the dealer's hand one at a time, each at a total below 17, so that no
    card is drawn at a total of 17 or more and none after a total above 21;
    the final total is at least 17; a hand that starts at 17 or more stays
    as it is, with the deck and everything else; and if the last card drawn
    took the total above 21, the round has one more [dealer_busts] and one
    more [total_wins], while otherwise the counters are as they were.  The
    cards drawn are the cards that [deal_card] deals from the deck, one deal
    for each and in this order, and the loop leaves the world that these
    deals leave, but for what it wrote to the terminal: no card is dealt
    that does not go to the hand.  When the deck has the cards for the
    draws, they are its last cards, taken from its end, and the cards
    before them are left in it, the random generator being untouched. *)
Theorem dealer_draws_below_17 entropy fuel cards r w :
  (18 ≤ fuel)%nat →
  dealer_draws entropy fuel cards r w ≠ Timeout
  ∧ (well_formed r → valid_hand (items_at cards w) →
     ∃ r' w', dealer_draws entropy fuel cards r w = Done r' w')
  ∧ (∀ total, calculate_hand (dealer_hand r) = Some total → 17 ≤ total →
       dealer_draws entropy fuel cards r w = Done r w)
  ∧ (∀ r' w',
       dealer_draws entropy fuel cards r w = Done r' w' →
       player_hand r' = player_hand r
       ∧ ∃ drawn t',
           dealer_hand r' = dealer_hand r ++ drawn
           ∧ (∀ k, (k < length drawn)%nat →
                ∃ t, calculate_hand (dealer_hand r ++ take k drawn) = Some t
                     ∧ t < 17)
           ∧ calculate_hand (dealer_hand r') = Some t' ∧ 17 ≤ t'
           ∧ ((game_stats r' = game_stats r
               ∧ ((drawn = [] ∧ w' = w) ∨ (drawn ≠ [] ∧ t' ≤ 21)))
              ∨ (drawn ≠ [] ∧ 21 < t'
                 ∧ increased DEALER_BUSTS (game_stats r) (game_stats r')
                 ∧ increased TOTAL_WINS (game_stats r) (game_stats r')
                 ∧ ∀ key, key ≠ DEALER_BUSTS → key ≠ TOTAL_WINS →
                     unchanged key (game_stats r) (game_stats r')))
           ∧ (∃ w'',
                deal_cards entropy (length drawn) cards w = Done drawn w''
                ∧ w' = set_console (console w') w'')
           ∧ (∀ deck, heap w !! cards = Some deck →
                (length drawn ≤ length deck)%nat →
                ∃ left,
                  deck = left ++ reverse drawn
                  ∧ heap w' = <[cards := left]> (heap w)
                  ∧ draws w' = draws w)).
Proof.
  intros Hfuel. split_and!.
  - by apply halts_dealer_draws.
  - intros Hr Hw.
    destruct (wpx_Done _ _ _ (tame_dealer_draws entropy fuel cards r Hfuel Hr w Hw))
      as (r' & w' & Hrun & _).
    eauto.
  - intros total Htotal Hge. destruct fuel as [|fuel]; [lia|].
    unfold dealer_draws. simpl. unfold mbind at 1, M_bind at 1.
    unfold dealer_step, mbind, M_bind. rewrite Htotal. simpl.
    by rewrite bool_decide_eq_false_2 by lia.
  - intros r' w' Hrun.
    destruct (post_Done _ _ _ _ _ (dealer_draws_spec entropy fuel cards r w) Hrun)
      as (Hp & _ & drawn & t' & Hd & Hlow & Ht' & Hge & Hend).
    destruct (post_Done _ _ _ _ _ (dealer_draws_deals entropy cards fuel r w) Hrun)
      as (drawn' & w'' & Hd' & Hdeals & Hw').
    assert (drawn' = drawn) as ->.
    { rewrite Hd in Hd'. by apply app_inv_head in Hd'. }
    split; [done|]. exists drawn, t'. split_and!; try done.
    + destruct Hend as [?|(Hne & Hgt & stats1 & H1 & H2)]; [by left|right].
      split_and!; try done; [by counters..|].
      intros key Hk1 Hk2. destruct H1 as (? & ? & ->), H2 as (? & ? & ->).
      unfold unchanged. by rewrite !lookup_insert_ne.
    + by exists w''.
    + intros deck Hdeck Hlen.
      exists (take (length deck - length drawn) deck).
      pose proof (deal_cards_pops entropy cards w
                    (take (length deck - length drawn) deck)
                    (drop (length deck - length drawn) deck)) as Hpops.
      rewrite take_drop in Hpops. specialize (Hpops Hdeck).
      rewrite length_drop in Hpops.
      replace (length deck - (length deck - length drawn))%nat
        with (length drawn) in Hpops by lia.
      rewrite Hdeals in Hpops. injection Hpops as Hdrawn Hworld.
      apply (f_equal reverse) in Hdrawn. rewrite reverse_involutive in Hdrawn.
      split_and!.
      * by rewrite Hdrawn, take_drop.
      * rewrite Hw', Hworld. done.
      * rewrite Hw', Hworld. done.
Qed.

Lemma dealer_draws_below_17_witness :
  (18 ≤ 18)%nat
  ∧ dealer_draws example_entropy 18 0%nat round_dealer_16
      (example_world [mkCard "Hearts" "2"; mkCard "Clubs" "9"] []) ≠ Timeout
  ∧ ∃ r' w',
      dealer_draws example_entropy 18 0%nat round_dealer_16
        (example_world [mkCard "Hearts" "2"; mkCard "Clubs" "9"] []) = Done r' w'
      ∧ dealer_hand r' = dealer_hand round_dealer_16 ++ [mkCard "Clubs" "9"]
      ∧ calculate_hand (dealer_hand r') = Some 25
      ∧ game_stats r' !! DEALER_BUSTS = Some 1
      ∧ game_stats r' !! TOTAL_WINS = Some 1
      ∧ heap w' = [[mkCard "Hearts" "2"]]
      ∧ draws w' = 0%nat.
Proof.
  split; [lia|].
  destruct (dealer_draws_below_17 example_entropy 18 0%nat round_dealer_16
              (example_world [mkCard "Hearts" "2"; mkCard "Clubs" "9"] []) (le_n 18))
    as (Hhalts & _ & _ & Hdone).
  split; [exact Hhalts|].
  destruct (dealer_draws example_entropy 18 0%nat round_dealer_16
              (example_world [mkCard "Hearts" "2"; mkCard "Clubs" "9"] []))
    as [r' w'| |] eqn:Hrun; [|by vm_compute in Hrun..].
  destruct (Hdone r' w' eq_refl) as (_ & drawn & t' & Hhand & _ & _ & _ & _ & _ & Hdeck).
  assert (dealer_hand r' = dealer_hand round_dealer_16 ++ [mkCard "Clubs" "9"])
    as Hhand'.
  { vm_compute in Hrun. by injection Hrun as <- _. }
  assert (drawn = [mkCard "Clubs" "9"]) as ->.
  { rewrite Hhand in Hhand'. by apply app_inv_head in Hhand'. }
  destruct (Hdeck [mkCard "Hearts" "2"; mkCard "Clubs" "9"] eq_refl)
    as (left & Hleft & Hheap & Hdraws); [simpl; lia|].
  assert (left = [mkCard "Hearts" "2"]) as ->.
  { change (reverse [mkCard "Clubs" "9"]) with [mkCard "Clubs" "9"] in Hleft.
    by apply (app_inj_tail [mkCard "Hearts" "2"]) in Hleft as [<- _]. }
  exists r', w'. split; [reflexivity|].
  split_and!; [exact Hhand'| | | |exact Hheap|exact Hdraws];
    vm_compute in Hrun; injection Hrun as <- _; by vm_compute.
Defined.

(** ** The prompts: rejected tokens *)

Section Rejections.

Variable entropy : nat → nat.
Variable upper : string → string.

(** One turn of the player's loop on a token that is not accepted. *)
Lemma player_step_rejects cards r w token rest :
  stdin w = token :: rest →
  upper token ≠ "H" → upper token ≠ "S" →
  player_step entropy upper cards r w
  = Done (inl r) (after_rejections hit_stand_rejection [token] rest w).
Proof.
  intros Hin HH HS.
  unfold player_step, mbind, M_bind, input. rewrite Hin.
  rewrite !bool_decide_eq_false_2 by done.
  unfold print, mret, M_ret, after_rejections, set_console, set_stdin,
    hit_stand_rejection. simpl.
  by rewrite <-!app_assoc.
Qed.

(** One turn of the loop of [play_again] on a token that is not accepted. *)
Lemma play_again_step_rejects w token rest :
  stdin w = token :: rest →
  upper token ≠ "P" → upper token ≠ "Q" →
  play_again_step upper () w
  = Done (inl ()) (after_rejections play_again_rejection [token] rest w).
Proof.
  intros Hin HP HQ.
  unfold play_again_step, mbind, M_bind, input. rewrite Hin.
  rewrite !bool_decide_eq_false_2 by done.
  unfold print, mret, M_ret, after_rejections, set_console, set_stdin,
    play_again_rejection. simpl.
  by rewrite <-!app_assoc.
Qed.

(** C7: at the prompt for a hit or a stand and at the prompt for another
    round, a token that is not accepted costs one turn of the loop: the
    prompt and the message of rejection are written, the token is read, and
    the loop goes on, with the hands, the counters, the deck and the random
    generator as they were and without an exception.  This holds for tokens
    that are not accepted however many they are: the loop then stands where
    it would have started on the rest of the input.  When an accepted token
    follows, the prompt is written once more and the token is obeyed: a
    stand returns the round as it was, [P] returns, [Q] raises [SystemExit];
    and when the input ends there, the prompt is written once more and it is
    [input] that raises [EOFError]. *)
Theorem invalid_input_reprompts (bad rest : list string) fuel cards r w :
  stdin w = bad ++ rest →
  (Forall (λ token, upper token ≠ "H" ∧ upper token ≠ "S") bad →
   (∀ token bad', bad = token :: bad' →
      player_step entropy upper cards r w
      = Done (inl r)
          (after_rejections hit_stand_rejection [token] (bad' ++ rest) w))
   ∧ player_turn entropy upper (length bad + fuel) cards r w
     = player_turn entropy upper fuel cards r
         (after_rejections hit_stand_rejection bad rest w)
   ∧ (∀ token rest', rest = token :: rest' → upper token = "S" →
        player_turn entropy upper (length bad + S fuel) cards r w
        = Done r
            (set_console
               (console w ++ (bad ≫= λ _, hit_stand_rejection)
                ++ [Prompted "Enter [H] to hit or [S] to stand: "; Printed ""])
               (set_stdin rest' w)))
   ∧ (rest = [] →
      player_turn entropy upper (length bad + S fuel) cards r w
      = Raised EOFError
          (set_console
             (console w ++ (bad ≫= λ _, hit_stand_rejection)
              ++ [Prompted "Enter [H] to hit or [S] to stand: "])
             (set_stdin [] w))))
  ∧ (Forall (λ token, upper token ≠ "P" ∧ upper token ≠ "Q") bad →
     (∀ token bad', bad = token :: bad' →
        play_again_step upper () w
        = Done (inl ())
            (after_rejections play_again_rejection [token] (bad' ++ rest) w))
     ∧ play_again upper (length bad + fuel) w
       = play_again upper fuel (after_rejections play_again_rejection bad rest w)
     ∧ (∀ token rest', rest = token :: rest' → upper token = "P" →
          play_again upper (length bad + S fuel) w
          = Done ()
              (set_console
                 (console w ++ (bad ≫= λ _, play_again_rejection)
                  ++ [Prompted "Enter [P] to play again or [Q] to quit: ";
                      Printed ""])
                 (set_stdin rest' w)))
     ∧ (∀ token rest', rest = token :: rest' → upper token = "Q" →
          play_again upper (length bad + S fuel) w
          = Raised SystemExit
              (set_console
                 (console w ++ (bad ≫= λ _, play_again_rejection)
                  ++ [Prompted "Enter [P] to play again or [Q] to quit: "])
                 (set_stdin rest' w)))
     ∧ (rest = [] →
        play_again upper (length bad + S fuel) w
        = Raised EOFError
            (set_console
               (console w ++ (bad ≫= λ _, play_again_rejection)
                ++ [Prompted "Enter [P] to play again or [Q] to quit: "])
               (set_stdin [] w)))).
Proof.
  intros Hin. split.
  - intros Hbad. split_and!.
    + intros token bad' ->. apply Forall_cons in Hbad as [[HH HS] _].
      by apply player_step_rejects.
    + by apply player_turn_skips.
    + intros token rest' -> HS.
      rewrite (player_turn_skips entropy upper bad (token :: rest') _ _ _ _ Hbad Hin).
      unfold player_turn. simpl. unfold mbind at 1, M_bind at 1.
      unfold player_step, mbind, M_bind, input, after_rejections. simpl.
      rewrite bool_decide_eq_false_2 by (by rewrite HS).
      rewrite bool_decide_eq_true_2 by done.
      unfold print, mret, M_ret, set_console, set_stdin. simpl.
      by repeat (rewrite <-(assoc_L (++)); simpl).
    + intros ->.
      rewrite (player_turn_skips entropy upper bad [] _ _ _ _ Hbad Hin).
      unfold player_turn. simpl. unfold mbind at 1, M_bind at 1.
      unfold player_step, mbind, M_bind, input, after_rejections. simpl.
      unfold set_console, set_stdin. simpl.
      by repeat (rewrite <-(assoc_L (++)); simpl).
  - intros Hbad. split_and!.
    + intros token bad' ->. apply Forall_cons in Hbad as [[HP HQ] _].
      by apply play_again_step_rejects.
    + by apply play_again_skips.
    + intros token rest' -> HP.
      rewrite (play_again_skips upper bad (token :: rest') _ _ Hbad Hin).
      unfold play_again. simpl. unfold mbind at 1, M_bind at 1.
      unfold play_again_step, mbind, M_bind, input, after_rejections. simpl.
      rewrite bool_decide_eq_true_2 by done.
      unfold print, mret, M_ret, set_console, set_stdin. simpl.
      by repeat (rewrite <-(assoc_L (++)); simpl).
    + intros token rest' -> HQ.
      rewrite (play_again_skips upper bad (token :: rest') _ _ Hbad Hin).
      unfold play_again. simpl. unfold mbind at 1, M_bind at 1.
      unfold play_again_step, mbind, M_bind, input, after_rejections. simpl.
      rewrite bool_decide_eq_false_2 by (rewrite HQ; done).
      rewrite bool_decide_eq_true_2 by done.
      unfold quit, raise, set_console, set_stdin. simpl.
      by repeat (rewrite <-(assoc_L (++)); simpl).
    + intros ->.
      rewrite (play_again_skips upper bad [] _ _ Hbad Hin).
      unfold play_again. simpl. unfold mbind at 1, M_bind at 1.
      unfold play_again_step, mbind, M_bind, input, after_rejections. simpl.
      unfold set_console, set_stdin. simpl.
      by repeat (rewrite <-(assoc_L (++)); simpl).
Qed.

End Rejections.

Lemma invalid_input_reprompts_witness :
  stdin (example_world deck_stand ["x"; "hit"; "s"]) = ["x"; "hit"] ++ ["s"]
  ∧ Forall (λ token, ascii_upper token ≠ "H" ∧ ascii_upper token ≠ "S") ["x"; "hit"]
  ∧ player_step example_entropy ascii_upper 0%nat round_dealer_16
      (example_world deck_stand ["x"; "hit"; "s"])
    = Done (inl round_dealer_16)
        (after_rejections hit_stand_rejection ["x"] (["hit"] ++ ["s"])
           (example_world deck_stand ["x"; "hit"; "s"]))
  ∧ player_turn example_entropy ascii_upper (length ["x"; "hit"] + 1) 0%nat
      round_dealer_16 (example_world deck_stand ["x"; "hit"; "s"])
    = Done round_dealer_16
        (set_console
           (console (example_world deck_stand ["x"; "hit"; "s"])
            ++ (["x"; "hit"] ≫= λ _, hit_stand_rejection)
            ++ [Prompted "Enter [H] to hit or [S] to stand: "; Printed ""])
           (set_stdin [] (example_world deck_stand ["x"; "hit"; "s"])))
  ∧ stdin (example_world deck_stand ["x"; "hit"; "p"]) = ["x"; "hit"] ++ ["p"]
  ∧ Forall (λ token, ascii_upper token ≠ "P" ∧ ascii_upper token ≠ "Q") ["x"; "hit"]
  ∧ play_again_step ascii_upper () (example_world deck_stand ["x"; "hit"; "p"])
    = Done (inl ())
        (after_rejections play_again_rejection ["x"] (["hit"] ++ ["p"])
           (example_world deck_stand ["x"; "hit"; "p"]))
  ∧ play_again ascii_upper (length ["x"; "hit"] + 1)
      (example_world deck_stand ["x"; "hit"; "p"])
    = Done ()
        (set_console
           (console (example_world deck_stand ["x"; "hit"; "p"])
            ++ (["x"; "hit"] ≫= λ _, play_again_rejection)
            ++ [Prompted "Enter [P] to play again or [Q] to quit: "; Printed ""])
           (set_stdin [] (example_world deck_stand ["x"; "hit"; "p"]))).
Proof.
  assert (Forall (λ token, ascii_upper token ≠ "H" ∧ ascii_upper token ≠ "S")
            ["x"; "hit"]) as Hbad.
  { repeat constructor; by vm_compute. }
  assert (Forall (λ token, ascii_upper token ≠ "P" ∧ ascii_upper token ≠ "Q")
            ["x"; "hit"]) as Hbad'.
  { repeat constructor; by vm_compute. }
  destruct (invalid_input_reprompts example_entropy ascii_upper
              ["x"; "hit"] ["s"] 0 0%nat round_dealer_16
              (example_world deck_stand ["x"; "hit"; "s"]) eq_refl)
    as [Hturn _].
  destruct (Hturn Hbad) as (Hstep & _ & Hstand & _).
  destruct (invalid_input_reprompts example_entropy ascii_upper
              ["x"; "hit"] ["p"] 0 0%nat round_dealer_16
              (example_world deck_stand ["x"; "hit"; "p"]) eq_refl)
    as [_ Hagain].
  destruct (Hagain Hbad') as (Hstep' & _ & Hplay & _).
  split_and!;
    [reflexivity|exact Hbad|exact (Hstep "x" ["hit"] eq_refl)
    |exact (Hstand "s" [] eq_refl eq_refl)
    |reflexivity|exact Hbad'|exact (Hstep' "x" ["hit"] eq_refl)
    |exact (Hplay "p" [] eq_refl eq_refl)].
Defined.

(** ** The file of the counters, run after run *)











Section RunAfterRun.

Variable entropy : nat → nat.
Variable upper : string → string.














End RunAfterRun.

